(** * CryptoStream: the event distribution core of [main.go]

    A shallow embedding of the SSE hub of the dashboard: the subscriber
    registry ([addClient], [removeClient]), the non-blocking fan-out
    ([broadcast]), the four periodic producers ([updatePrices],
    [generateTrade], [generateAlert], [broadcastStats]) and the transport
    loop ([handleSSE], [sendSSE]).

    - [float64] is the kernel's binary64 type [float]; every arithmetic
      operation of the source is the corresponding IEEE 754 primitive, in the
      order the source writes it (no fused multiply-add).
    - Go's [int] and [int64] are [Z] with the 64-bit wrap-around written out.
    - The package-level variables are the fields of [State]; a function of
      the source is a computation [M A] that threads the state and ends in
      [Done], [Panic] (a Go run-time panic) or [Block] (the goroutine would
      wait forever in the state it was started in).
    - [math/rand], [time.Now] and [json.Marshal] are an [Oracle] carried by
      the state: tapes indexed by a cursor that every call advances.
    - [log.Printf] and [http.Flusher.Flush] leave no trace in the model. *)

From Stdlib Require Import ZArith Floats Lia.
From Stdlib Require Import Uint63.
From stdpp Require Import gmap strings list fin_maps pretty.

Set Warnings "-inexact-float".

Local Open Scope Z_scope.

(** ** Go's [math] package on [float64] *)

Module math.
Local Open Scope float_scope.

(** [IsNaN f] is [f != f]. *)
Definition IsNaN (f : float) : bool := negb (f =? f).

(** [IsInf f sign]: [sign > 0] asks for [+Inf], [sign < 0] for [-Inf],
    [sign = 0] for either. *)
Definition IsInf (f : float) (sign : Z) : bool :=
  ((0 <=? sign)%Z && (f =? infinity)) || ((sign <=? 0)%Z && (f =? neg_infinity)).

Definition Signbit (f : float) : bool := get_sign f.

(** [Max x y]: [Max(x, +Inf) = Max(+Inf, x) = +Inf], [Max(x, NaN) =
    Max(NaN, x) = NaN], [Max(+0, ±0) = Max(±0, +0) = +0]. *)
Definition Max (x y : float) : float :=
  if IsInf x 1 || IsInf y 1 then infinity
  else if IsNaN x || IsNaN y then nan
  else if (x =? 0) && (x =? y) then (if Signbit x then y else x)
  else if y <? x then x else y.

(** [Min x y]: [Min(x, -Inf) = Min(-Inf, x) = -Inf], [Min(x, NaN) =
    Min(NaN, x) = NaN], [Min(-0, ±0) = Min(±0, -0) = -0]. *)
Definition Min (x y : float) : float :=
  if IsInf x (-1) || IsInf y (-1) then neg_infinity
  else if IsNaN x || IsNaN y then nan
  else if (x =? 0) && (x =? y) then (if Signbit x then x else y)
  else if x <? y then x else y.

(** [Round x]: the nearest integer, halves away from zero; [±0], [±Inf] and
    [NaN] are returned as they are.  On a finite [x = ± m * 2^e] with
    [e < 0] the magnitude becomes [floor (m * 2^e + 1/2)], an integer below
    [2^53] that binary64 holds exactly. *)
Definition Round (x : float) : float :=
  match Prim2SF x with
  | S754_finite s m e =>
      if (0 <=? e)%Z then x
      else
        let n := ((Z.pos m + 2 ^ (- e - 1)) / 2 ^ (- e))%Z in
        let r := of_uint63 (of_Z n) in
        if s then - r else r
  | _ => x
  end.

End math.

(** ** Data models *)

(** [Crypto]: a cryptocurrency with its current state. *)
Record Crypto := mkCrypto {
  Symbol : string;
  Name : string;
  Price : float;
  Change24h : float;
  Volume : float;
  High24h : float;
  Low24h : float
}.

(** [Trade]: a single trade transaction. *)
Record Trade := mkTrade {
  Trade_ID : string;
  Trade_Symbol : string;
  Trade_Type : string;
  Trade_Price : float;
  Trade_Amount : float;
  Trade_Total : float;
  Trade_Timestamp : string
}.

(** [Alert]: a market alert. *)
Record Alert := mkAlert {
  Alert_ID : string;
  Alert_Type : string;
  Alert_Title : string;
  Alert_Message : string;
  Alert_Timestamp : string
}.

(** The values the source stores in the [interface{}] field [Data]. *)
Inductive Payload :=
  | PricesData (cs : list Crypto)
  | TradeData (t : Trade)
  | AlertData (a : Alert)
  | StatsData (trades : Z) (volume : float) (traders : Z) (timestamp : string)
  | InitData (cs : list Crypto) (message : string)
  | NilData.

Record SSEMessage := mkSSEMessage {
  Event : string;
  Data : Payload
}.

(** A buffered channel [chan SSEMessage]: the queued items, oldest first, the
    capacity given to [make], and whether [close] has been called. *)
Record Chan := mkChan {
  buf : list SSEMessage;
  cap : nat;
  closed : bool
}.

(** [sync.RWMutex]: held by a writer, or by a number of readers. *)
Record RWMutex := mkRWMutex {
  writer : bool;
  readers : nat
}.

Inductive MutexId := ClientsMu | StatsMu.

(** What the program takes from outside: the [k]-th call to the outside
    world reads its tape at [k]. *)
Record Oracle := mkOracle {
  Float64 : nat -> float;       (* rand.Float64(): a value of [0, 1) *)
  Float32 : nat -> float;       (* rand.Float32(): a value of [0, 1) *)
  Int : nat -> nat;             (* the source of rand.Intn *)
  UnixNano : nat -> Z;          (* time.Now().UnixNano() *)
  Clock : nat -> string;        (* time.Now().Format("15:04:05") *)
  Marshal : SSEMessage -> option string   (* json.Marshal *)
}.

(** ** Global state *)

Record State := mkState {
  cryptos : gmap string Crypto;
  chans : gmap nat Chan;            (* the channels made so far *)
  nextChan : nat;                   (* the next channel [make] returns *)
  clients : gmap nat bool;
  clientsMu : RWMutex;
  totalTrades : Z;
  totalVolume : float;
  activeTraders : Z;
  statsMu : RWMutex;
  resp : gmap nat string;           (* what each connection's writer holds *)
  oracle : Oracle;
  cursor : nat
}.

Definition set_cryptos (f : gmap string Crypto -> gmap string Crypto) (s : State) : State :=
  mkState (f (cryptos s)) (chans s) (nextChan s) (clients s) (clientsMu s)
    (totalTrades s) (totalVolume s) (activeTraders s) (statsMu s) (resp s)
    (oracle s) (cursor s).

Definition set_chans (f : gmap nat Chan -> gmap nat Chan) (s : State) : State :=
  mkState (cryptos s) (f (chans s)) (nextChan s) (clients s) (clientsMu s)
    (totalTrades s) (totalVolume s) (activeTraders s) (statsMu s) (resp s)
    (oracle s) (cursor s).

Definition set_nextChan (f : nat -> nat) (s : State) : State :=
  mkState (cryptos s) (chans s) (f (nextChan s)) (clients s) (clientsMu s)
    (totalTrades s) (totalVolume s) (activeTraders s) (statsMu s) (resp s)
    (oracle s) (cursor s).

Definition set_clients (f : gmap nat bool -> gmap nat bool) (s : State) : State :=
  mkState (cryptos s) (chans s) (nextChan s) (f (clients s)) (clientsMu s)
    (totalTrades s) (totalVolume s) (activeTraders s) (statsMu s) (resp s)
    (oracle s) (cursor s).

Definition set_clientsMu (f : RWMutex -> RWMutex) (s : State) : State :=
  mkState (cryptos s) (chans s) (nextChan s) (clients s) (f (clientsMu s))
    (totalTrades s) (totalVolume s) (activeTraders s) (statsMu s) (resp s)
    (oracle s) (cursor s).

Definition set_totalTrades (f : Z -> Z) (s : State) : State :=
  mkState (cryptos s) (chans s) (nextChan s) (clients s) (clientsMu s)
    (f (totalTrades s)) (totalVolume s) (activeTraders s) (statsMu s) (resp s)
    (oracle s) (cursor s).

Definition set_totalVolume (f : float -> float) (s : State) : State :=
  mkState (cryptos s) (chans s) (nextChan s) (clients s) (clientsMu s)
    (totalTrades s) (f (totalVolume s)) (activeTraders s) (statsMu s) (resp s)
    (oracle s) (cursor s).

Definition set_activeTraders (f : Z -> Z) (s : State) : State :=
  mkState (cryptos s) (chans s) (nextChan s) (clients s) (clientsMu s)
    (totalTrades s) (totalVolume s) (f (activeTraders s)) (statsMu s) (resp s)
    (oracle s) (cursor s).

Definition set_statsMu (f : RWMutex -> RWMutex) (s : State) : State :=
  mkState (cryptos s) (chans s) (nextChan s) (clients s) (clientsMu s)
    (totalTrades s) (totalVolume s) (activeTraders s) (f (statsMu s)) (resp s)
    (oracle s) (cursor s).

Definition set_resp (f : gmap nat string -> gmap nat string) (s : State) : State :=
  mkState (cryptos s) (chans s) (nextChan s) (clients s) (clientsMu s)
    (totalTrades s) (totalVolume s) (activeTraders s) (statsMu s) (f (resp s))
    (oracle s) (cursor s).

Definition set_cursor (f : nat -> nat) (s : State) : State :=
  mkState (cryptos s) (chans s) (nextChan s) (clients s) (clientsMu s)
    (totalTrades s) (totalVolume s) (activeTraders s) (statsMu s) (resp s)
    (oracle s) (f (cursor s)).

(** ** Computations *)

Inductive outcome (A : Type) :=
  | Done (a : A) (s : State)
  | Panic (msg : string) (s : State)
  | Block (s : State).
Arguments Done {A} a s.
Arguments Panic {A} msg s.
Arguments Block {A} s.

Definition M (A : Type) : Type := State -> outcome A.

#[global] Instance M_ret : MRet M := fun A (a : A) s => Done a s.

#[global] Instance M_bind : MBind M := fun A B (k : A -> M B) (m : M A) s =>
  match m s with
  | Done a s' => k a s'
  | Panic msg s' => Panic msg s'
  | Block s' => Block s'
  end.

Definition get : M State := fun s => Done s s.
Definition modify (f : State -> State) : M unit := fun s => Done tt (f s).
Definition panic {A} (msg : string) : M A := fun s => Panic msg s.

(** The state a computation leaves behind, however it ends. *)
Definition final {A} (o : outcome A) : State :=
  match o with
  | Done _ s => s
  | Panic _ s => s
  | Block s => s
  end.

(** [defer cleanup] before [body]: [cleanup] runs when [body] returns and
    when it panics; the panic then goes on. *)
Definition defer {A} (cleanup : M unit) (body : M A) : M A :=
  fun s =>
    match body s with
    | Done a s' =>
        match cleanup s' with
        | Done _ s'' => Done a s''
        | Panic msg s'' => Panic msg s''
        | Block s'' => Block s''
        end
    | Panic msg s' =>
        match cleanup s' with
        | Done _ s'' => Panic msg s''
        | Panic msg' s'' => Panic msg' s''
        | Block s'' => Block s''
        end
    | Block s' => Block s'
    end.

(** [for _, x := range l { body x }]. *)
Fixpoint for_each {A} (l : list A) (body : A -> M unit) : M unit :=
  match l with
  | [] => mret tt
  | x :: l' => body x ;; for_each l' body
  end.

(** ** Primitives of the language and of the libraries *)

(** A signed 64-bit integer after an arithmetic operation. *)
Definition wrap64 (z : Z) : Z := (z + 2 ^ 63) mod 2 ^ 64 - 2 ^ 63.

Definition nl : string := String (Ascii.ascii_of_nat 10) EmptyString.

Definition draw {A} (tape : Oracle -> nat -> A) : M A :=
  fun s => Done (tape (oracle s) (cursor s)) (set_cursor S s).

Definition rand_Float64 : M float := draw Float64.
Definition rand_Float32 : M float := draw Float32.
Definition rand_Intn (n : nat) : M nat := k ← draw Int; mret (k mod n)%nat.
Definition time_Now_UnixNano : M Z := draw UnixNano.
Definition time_Now_Format : M string := draw Clock.

Definition getMu (mu : MutexId) (s : State) : RWMutex :=
  match mu with
  | ClientsMu => clientsMu s
  | StatsMu => statsMu s
  end.

Definition setMu (mu : MutexId) (m : RWMutex) : State -> State :=
  match mu with
  | ClientsMu => set_clientsMu (fun _ => m)
  | StatsMu => set_statsMu (fun _ => m)
  end.

(** [mu.Lock()] waits while a writer or a reader holds [mu]. *)
Definition Lock (mu : MutexId) : M unit :=
  fun s =>
    let m := getMu mu s in
    if writer m || negb (Nat.eqb (readers m) 0) then Block s
    else Done tt (setMu mu (mkRWMutex true (readers m)) s).

Definition Unlock (mu : MutexId) : M unit :=
  fun s =>
    let m := getMu mu s in
    if writer m then Done tt (setMu mu (mkRWMutex false (readers m)) s)
    else Panic "sync: Unlock of unlocked RWMutex" s.

(** [mu.RLock()] waits while a writer holds [mu]. *)
Definition RLock (mu : MutexId) : M unit :=
  fun s =>
    let m := getMu mu s in
    if writer m then Block s
    else Done tt (setMu mu (mkRWMutex false (S (readers m))) s).

Definition RUnlock (mu : MutexId) : M unit :=
  fun s =>
    let m := getMu mu s in
    match readers m with
    | O => Panic "sync: RUnlock of unlocked RWMutex" s
    | S n => Done tt (setMu mu (mkRWMutex (writer m) n) s)
    end.

(** [make(chan SSEMessage, capacity)]. *)
Definition make_chan (capacity : nat) : M nat :=
  fun s =>
    let ch := nextChan s in
    Done ch (set_nextChan S (set_chans <[ch := mkChan [] capacity false]> s)).

(** [close(ch)]. *)
Definition close (ch : nat) : M unit :=
  fun s =>
    match chans s !! ch with
    | None => Panic "close of nil channel" s
    | Some c =>
        if closed c then Panic "close of closed channel" s
        else Done tt (set_chans <[ch := mkChan (buf c) (cap c) true]> s)
    end.

(** [select { case ch <- msg: default: }]: the send is taken when the
    buffer has room; a send on a closed channel panics; a nil channel is
    never ready. *)
Definition try_send (msg : SSEMessage) (ch : nat) : M unit :=
  fun s =>
    match chans s !! ch with
    | None => Done tt s
    | Some c =>
        if closed c then Panic "send on closed channel" s
        else if (length (buf c) <? cap c)%nat
             then Done tt (set_chans <[ch := mkChan (buf c ++ [msg]) (cap c) false]> s)
             else Done tt s
    end.

(** [<-ch]: the oldest item; the zero value once the channel is closed and
    drained; a wait on an open empty channel. *)
Definition recv (ch : nat) : M SSEMessage :=
  fun s =>
    match chans s !! ch with
    | None => Block s
    | Some c =>
        match buf c with
        | msg :: rest => Done msg (set_chans <[ch := mkChan rest (cap c) (closed c)]> s)
        | [] => if closed c then Done (mkSSEMessage "" NilData) s else Block s
        end
    end.

(** [fmt.Fprintf(w, ...)] on the writer of connection [w]. *)
Definition Fprintf (w : nat) (text : string) : M unit :=
  modify (set_resp (fun r => <[w := default "" (r !! w) +:+ text]> r)).

(** ** SSE client management *)

(** [addClient] registers a new SSE client. *)
Definition addClient (ch : nat) : M unit :=
  Lock ClientsMu;;
  modify (set_clients <[ch := true]>);;
  Unlock ClientsMu;;
  Lock StatsMu;;
  modify (set_activeTraders (fun n => wrap64 (n + 1)));;
  Unlock StatsMu.

(** [removeClient] unregisters an SSE client. *)
Definition removeClient (ch : nat) : M unit :=
  Lock ClientsMu;;
  modify (set_clients (delete ch));;
  close ch;;
  Unlock ClientsMu;;
  Lock StatsMu;;
  modify (set_activeTraders (fun n => wrap64 (n - 1)));;
  Unlock StatsMu.

(** The order in which [for ch := range clients] visits the registry; Go
    leaves it unspecified, [broadcast_order_irrelevant] shows that it does not
    matter. *)
Definition range_clients (s : State) : list nat := (map_to_list (clients s)).*1.

(** The loop of [broadcast], over the sinks in the order [order]. *)
Definition broadcast_over (order : list nat) (msg : SSEMessage) : M unit :=
  RLock ClientsMu;;
  defer (RUnlock ClientsMu) (for_each order (try_send msg)).

(** [broadcast] sends a message to all connected clients. *)
Definition broadcast (msg : SSEMessage) : M unit :=
  s ← get;
  broadcast_over (range_clients s) msg.

(** ** Market simulation *)

Definition symbols : list string := ["BTC"; "ETH"; "SOL"; "ADA"; "DOT"; "AVAX"].

(** [getCryptoList] returns current crypto data as a slice.  Go ranges over
    the map in an order that is unspecified and differs from call to call;
    the list below is in one such order, and what is claimed of a snapshot
    is claimed up to permutation. *)
Definition getCryptoList : M (list Crypto) :=
  s ← get;
  mret ((map_to_list (cryptos s)).*2).

(** The body of the loop of [updatePrices] on one [Crypto], with the three
    draws of [rand.Float64] it makes. *)
Definition tick_crypto (r1 r2 r3 : float) (c : Crypto) : Crypto :=
  let changePercent := ((r1 - 0.5) * 4)%float in
  let priceChange := (Price c * (changePercent / 100))%float in
  let price := (Price c + priceChange)%float in
  let change := (Change24h c + (r2 - 0.5) * 0.5)%float in
  let change := math.Max (-20)%float (math.Min 20%float change) in
  let high := if (High24h c <? price)%float then price else High24h c in
  let low := if (price <? Low24h c)%float then price else Low24h c in
  let volume := (Volume c + r3 * 10000000)%float in
  mkCrypto (Symbol c) (Name c) price change volume high low.

Definition nil_deref : string := "invalid memory address or nil pointer dereference".

(** One iteration of the loop of [updatePrices]. *)
Definition tick_symbol (symbol : string) : M unit :=
  s ← get;
  r1 ← rand_Float64;
  match cryptos s !! symbol with
  | None => panic nil_deref
  | Some c =>
      r2 ← rand_Float64;
      r3 ← rand_Float64;
      modify (set_cryptos <[symbol := tick_crypto r1 r2 r3 c]>)
  end.

(** [updatePrices] simulates price changes for all cryptos. *)
Definition updatePrices : M unit :=
  for_each symbols tick_symbol;;
  cs ← getCryptoList;
  broadcast (mkSSEMessage "prices" (PricesData cs)).

(** [generateTrade] creates a random trade. *)
Definition generateTrade : M unit :=
  i ← rand_Intn (length symbols);
  match symbols !! i with
  | None => panic "index out of range"
  | Some symbol =>
      s ← get;
      f ← rand_Float32;
      let tradeType := if (0.5 <? f)%float then "sell" else "buy" in
      a ← rand_Float64;
      amount ← (if String.eqb symbol "BTC"
                then a' ← rand_Float64; mret (a' * 2)%float
                else mret (a * 10)%float);
      nano ← time_Now_UnixNano;
      match cryptos s !! symbol with
      | None => panic nil_deref
      | Some crypto =>
          clock ← time_Now_Format;
          let trade :=
            mkTrade ("T" +:+ pretty nano) symbol tradeType (Price crypto)
              (math.Round (amount * 10000) / 10000)%float
              (math.Round (Price crypto * amount * 100) / 100)%float
              clock in
          Lock StatsMu;;
          modify (set_totalTrades (fun n => wrap64 (n + 1)));;
          modify (set_totalVolume (fun v => (v + Trade_Total trade)%float));;
          Unlock StatsMu;;
          broadcast (mkSSEMessage "trade" (TradeData trade))
      end
  end.

Definition alerts : list Alert := [
  mkAlert "" "success" "Whale Alert" "Large BTC transfer detected: 500 BTC moved to exchange" "";
  mkAlert "" "warning" "High Volatility" "SOL experiencing unusual price movement" "";
  mkAlert "" "info" "Market Update" "Trading volume up 25% in the last hour" "";
  mkAlert "" "danger" "Price Alert" "ETH dropped below key support level" "";
  mkAlert "" "success" "New ATH" "AVAX reached new all-time high!" "";
  mkAlert "" "info" "Network Update" "Ethereum gas fees at 3-month low" "";
  mkAlert "" "warning" "Liquidation Alert" "$50M in longs liquidated on BTC" "";
  mkAlert "" "success" "Adoption News" "Major institution announces crypto investment" ""
].

(** [generateAlert] creates random market alerts. *)
Definition generateAlert : M unit :=
  i ← rand_Intn (length alerts);
  match alerts !! i with
  | None => panic "index out of range"
  | Some alert =>
      nano ← time_Now_UnixNano;
      clock ← time_Now_Format;
      broadcast (mkSSEMessage "alert"
        (AlertData (mkAlert ("A" +:+ pretty nano) (Alert_Type alert)
                      (Alert_Title alert) (Alert_Message alert) clock)))
  end.

(** [broadcastStats] sends current statistics. *)
Definition broadcastStats : M unit :=
  RLock StatsMu;;
  s ← get;
  clock ← time_Now_Format;
  RUnlock StatsMu;;
  broadcast (mkSSEMessage "stats"
    (StatsData (totalTrades s)
       (math.Round (totalVolume s * 100) / 100)%float
       (activeTraders s) clock)).

(** ** HTTP handlers *)

(** [sendSSE] writes an SSE message to the response. *)
Definition sendSSE (w : nat) (msg : SSEMessage) : M unit :=
  s ← get;
  match Marshal (oracle s) msg with
  | None => mret tt
  | Some data =>
      Fprintf w ("event: message" +:+ nl);;
      Fprintf w ("data: " +:+ data +:+ nl +:+ nl)
  end.

(** [handleSSE] up to its loop: the client channel is made and registered
    and the initial data is sent.  The connection is named by its channel. *)
Definition handleSSE_open : M nat :=
  clientChan ← make_chan 10;
  addClient clientChan;;
  cs ← getCryptoList;
  sendSSE clientChan
    (mkSSEMessage "init" (InitData cs "Connected to CryptoStream Live"));;
  mret clientChan.

(** One turn of the loop of [handleSSE] through [case msg := <-clientChan]. *)
Definition handleSSE_message (clientChan : nat) : M unit :=
  msg ← recv clientChan;
  sendSSE clientChan msg.

(** The loop of [handleSSE] leaving through [case <-r.Context().Done()]: the
    handler returns and the deferred [removeClient] runs. *)
Definition handleSSE_done (clientChan : nat) : M unit :=
  removeClient clientChan.

(** ** The state at process start *)

Definition seed_cryptos : gmap string Crypto :=
  list_to_map [
    ("BTC", mkCrypto "BTC" "Bitcoin" 43250.00 2.5 28500000000 44100 42800);
    ("ETH", mkCrypto "ETH" "Ethereum" 2280.00 (-1.2) 15200000000 2350 2250);
    ("SOL", mkCrypto "SOL" "Solana" 98.50 5.8 2100000000 102 94);
    ("ADA", mkCrypto "ADA" "Cardano" 0.52 (-0.8) 450000000 0.55 0.50);
    ("DOT", mkCrypto "DOT" "Polkadot" 7.25 1.3 320000000 7.50 7.10);
    ("AVAX", mkCrypto "AVAX" "Avalanche" 35.80 3.2 580000000 37.00 34.50)
  ]%float.

Definition unlocked : RWMutex := mkRWMutex false 0.

Definition init_state (o : Oracle) : State :=
  mkState seed_cryptos ∅ 0 ∅ unlocked 0 0%float 0 unlocked ∅ o 0.

(** ** The concurrent program as atomic actions

    [clientsMu] is held for the whole of the registry update of [addClient]
    and [removeClient], and read-held for the whole loop of [broadcast]: a
    registry update never runs inside a broadcast loop.  Broadcast loops of
    several producers do run inside one another; their unit is one
    [select] on one registered sink.  An [Action] is one such step of one
    goroutine. *)

Inductive Action :=
  | Connect                        (* handleSSE accepts a connection *)
  | Message (ch : nat)             (* the loop of connection ch takes an item *)
  | Disconnect (ch : nat)          (* the request context of ch is done *)
  | PriceTick
  | TradeTick
  | AlertTick
  | StatsTick
  | Send (msg : SSEMessage) (ch : nat).   (* one turn of a broadcast loop in flight *)

Definition act (a : Action) : M unit :=
  match a with
  | Connect => handleSSE_open;; mret tt
  | Message ch => handleSSE_message ch
  | Disconnect ch => handleSSE_done ch
  | PriceTick => updatePrices
  | TradeTick => generateTrade
  | AlertTick => generateAlert
  | StatsTick => broadcastStats
  | Send msg ch => try_send msg ch
  end.

(** The handler of [ch] runs from [Connect] until its [Disconnect], which is
    when [ch] is in the registry; a broadcast loop visits the sinks that are
    in the registry. *)
Definition enabled (a : Action) (s : State) : Prop :=
  match a with
  | Message ch | Disconnect ch | Send _ ch => is_Some (clients s !! ch)
  | _ => True
  end.

(** [steps s acts s']: the actions [acts], each enabled and run to its end,
    lead from [s] to [s']. *)
Inductive steps : State -> list Action -> State -> Prop :=
  | steps_nil (s : State) : steps s [] s
  | steps_cons (s s1 s2 : State) (a : Action) (acts : list Action) :
      enabled a s -> act a s = Done tt s1 -> steps s1 acts s2 ->
      steps s (a :: acts) s2.

Definition reachable (s : State) : Prop :=
  exists (o : Oracle) (acts : list Action), steps (init_state o) acts s.

(** ** Specification vocabulary *)

(** No goroutine is inside a critical section. *)
Definition quiescent (s : State) : Prop :=
  clientsMu s = unlocked /\ statsMu s = unlocked.

(** Every registered sink is a channel that is not closed. *)
Definition registry_live (s : State) : Prop :=
  forall ch, is_Some (clients s !! ch) ->
    exists c, chans s !! ch = Some c /\ closed c = false.

(** Every channel was made with capacity 10 and holds no more than that. *)
Definition queues_bounded (s : State) : Prop :=
  forall ch c, chans s !! ch = Some c ->
    cap c = 10%nat /\ (length (buf c) <= 10)%nat.

(** [make] has not yet returned the channels from [nextChan] on. *)
Definition heap_fresh (s : State) : Prop :=
  forall ch, (nextChan s <= ch)%nat -> chans s !! ch = None.

(** A channel that is not in the registry has been closed. *)
Definition unregistered_closed (s : State) : Prop :=
  forall ch c, chans s !! ch = Some c -> closed c = false -> is_Some (clients s !! ch).

(** The six tracked symbols are in the market-state map. *)
Definition market_tracked (s : State) : Prop :=
  forall symbol, symbol ∈ symbols -> is_Some (cryptos s !! symbol).

(** What [select { case ch <- msg: default: }] makes of an open channel. *)
Definition offer (msg : SSEMessage) (c : Chan) : Chan :=
  if (length (buf c) <? cap c)%nat then mkChan (buf c ++ [msg]) (cap c) false else c.

(** [s'] differs from [s] in the channels only. *)
Definition only_chans (s s' : State) : Prop :=
  s' = set_chans (fun _ => chans s') s.

(** Registry operations, as a caller may sequence them. *)
Inductive RegOp :=
  | Register (ch : nat)
  | Unregister (ch : nat).

Definition run_op (op : RegOp) : M unit :=
  match op with
  | Register ch => addClient ch
  | Unregister ch => removeClient ch
  end.

Definition run_ops (ops : list RegOp) : M unit := for_each ops run_op.

(** Every [Unregister] of the sequence targets a sink that is in the
    registry [reg] when its turn comes. *)
Fixpoint unregisters_registered (reg : gset nat) (ops : list RegOp) : bool :=
  match ops with
  | [] => true
  | Register ch :: ops' => unregisters_registered ({[ch]} ∪ reg) ops'
  | Unregister ch :: ops' =>
      bool_decide (ch ∈ reg) && unregisters_registered (reg ∖ {[ch]}) ops'
  end.

(** Every [Register] targets an open channel that is not in the registry
    and every [Unregister] a sink that is, when their turn comes. *)
Definition op_ok (op : RegOp) (s : State) : Prop :=
  match op with
  | Register ch =>
      clients s !! ch = None /\ exists c, chans s !! ch = Some c /\ closed c = false
  | Unregister ch => is_Some (clients s !! ch)
  end.

Fixpoint ops_ok (ops : list RegOp) (s : State) : Prop :=
  match ops with
  | [] => True
  | op :: ops' => op_ok op s /\ ops_ok ops' (final (run_op op s))
  end.

(** ** The computation monad *)

Lemma bind_Done {A B} (m : M A) (k : A -> M B) s a s' :
  m s = Done a s' -> (m ≫= k) s = k a s'.
Proof. intros H. unfold mbind, M_bind. by rewrite H. Qed.

Lemma bind_Panic {A B} (m : M A) (k : A -> M B) s msg s' :
  m s = Panic msg s' -> (m ≫= k) s = Panic msg s'.
Proof. intros H. unfold mbind, M_bind. by rewrite H. Qed.

Lemma bind_Block {A B} (m : M A) (k : A -> M B) s s' :
  m s = Block s' -> (m ≫= k) s = Block s'.
Proof. intros H. unfold mbind, M_bind. by rewrite H. Qed.

Lemma bind_inv_Done {A B} (m : M A) (k : A -> M B) s b s2 :
  (m ≫= k) s = Done b s2 -> exists a s1, m s = Done a s1 /\ k a s1 = Done b s2.
Proof.
  unfold mbind, M_bind. destruct (m s) as [a s1| |]; [eauto | done | done].
Qed.

Lemma for_each_app {A} (l1 l2 : list A) (body : A -> M unit) s :
  for_each (l1 ++ l2) body s = (for_each l1 body;; for_each l2 body) s.
Proof.
  revert s. induction l1 as [|x l1 IH]; intros s; simpl; [done|].
  unfold mbind, M_bind in *. destruct (body x s); [apply IH | done | done].
Qed.

(** ** The registry *)

Lemma addClient_spec ch s :
  quiescent s ->
  addClient ch s =
    Done tt (set_activeTraders (fun n => wrap64 (n + 1)) (set_clients <[ch := true]> s)).
Proof.
  intros [Hc Hs]. destruct s; simpl in *; subst. reflexivity.
Qed.

Lemma removeClient_open ch s c :
  quiescent s -> chans s !! ch = Some c -> closed c = false ->
  removeClient ch s =
    Done tt (set_activeTraders (fun n => wrap64 (n - 1))
               (set_chans <[ch := mkChan (buf c) (cap c) true]>
                  (set_clients (delete ch) s))).
Proof.
  intros [Hc Hs] Hch Hopen. destruct s; simpl in *; subst.
  unfold removeClient, mbind, M_bind, close; simpl. rewrite Hch, Hopen. reflexivity.
Qed.

Lemma removeClient_closed ch s c :
  quiescent s -> chans s !! ch = Some c -> closed c = true ->
  removeClient ch s =
    Panic "close of closed channel"
      (set_clients (delete ch) (set_clientsMu (fun _ => mkRWMutex true 0) s)).
Proof.
  intros [Hc Hs] Hch Hclosed. destruct s; simpl in *; subst.
  unfold removeClient, mbind, M_bind, close; simpl. rewrite Hch, Hclosed. reflexivity.
Qed.

(** ** The broadcast loop *)

Lemma only_chans_refl s : only_chans s s.
Proof. unfold only_chans. by destruct s. Qed.

Lemma only_chans_trans s1 s2 s3 : only_chans s1 s2 -> only_chans s2 s3 -> only_chans s1 s3.
Proof. unfold only_chans. intros H12 H23. rewrite H23, H12 at 1. by destruct s1. Qed.

Lemma only_chans_set f s : only_chans s (set_chans f s).
Proof. unfold only_chans. by destruct s. Qed.

Lemma only_chans_eq s s1 s2 :
  only_chans s s1 -> only_chans s s2 -> chans s1 = chans s2 -> s1 = s2.
Proof. unfold only_chans. intros H1 H2 E. rewrite H1, H2, E. done. Qed.

Lemma try_send_open msg ch s c :
  chans s !! ch = Some c -> closed c = false ->
  try_send msg ch s = Done tt (set_chans <[ch := offer msg c]> s).
Proof.
  intros Hch Hopen. unfold try_send, offer. rewrite Hch, Hopen.
  destruct (length (buf c) <? cap c)%nat; [done|].
  f_equal. destruct s; unfold set_chans; simpl in *. f_equal.
  symmetry. by apply insert_id.
Qed.

Lemma try_send_closed msg ch s c :
  chans s !! ch = Some c -> closed c = true ->
  try_send msg ch s = Panic "send on closed channel" s.
Proof. intros Hch Hc. unfold try_send. by rewrite Hch, Hc. Qed.

Lemma offer_closed msg c : closed c = false -> closed (offer msg c) = false.
Proof. intros H. unfold offer. by destruct (_ <? _)%nat. Qed.

Lemma offer_cap msg c : cap (offer msg c) = cap c.
Proof. unfold offer. by destruct (_ <? _)%nat. Qed.

Lemma offer_length msg c :
  (length (buf c) <= cap c)%nat -> (length (buf (offer msg c)) <= cap c)%nat.
Proof.
  intros H. unfold offer. destruct (_ <? _)%nat eqn:E; simpl; [|done].
  apply Nat.ltb_lt in E. rewrite length_app. simpl. lia.
Qed.

Lemma for_each_try_send msg (order : list nat) s :
  NoDup order ->
  (forall ch, ch ∈ order -> exists c, chans s !! ch = Some c /\ closed c = false) ->
  exists s',
    for_each order (try_send msg) s = Done tt s' /\
    only_chans s s' /\
    forall ch, chans s' !! ch =
      if decide (ch ∈ order) then offer msg <$> chans s !! ch else chans s !! ch.
Proof.
  revert s. induction order as [|x order IH]; intros s Hnd Hlive.
  - exists s. split; [done|]. split; [apply only_chans_refl|].
    intros ch. case_decide as Hin; [by apply elem_of_nil in Hin | done].
  - apply NoDup_cons in Hnd as [Hx Hnd].
    destruct (Hlive x) as (c & Hc & Hopen); [by left|].
    destruct (IH (set_chans <[x := offer msg c]> s) Hnd) as (s' & Hrun & Honly & Hlook).
    { intros ch Hin. destruct (Hlive ch) as (c' & Hc' & Hopen'); [by right|].
      exists c'. split; [|done]. destruct s; simpl in *.
      rewrite lookup_insert_ne; [done|]. intros ->. done. }
    exists s'. split; [|split].
    + simpl. erewrite bind_Done; [exact Hrun | by apply try_send_open].
    + eapply only_chans_trans; [apply only_chans_set | done].
    + intros ch. rewrite Hlook. destruct s; simpl in *.
      destruct (decide (ch = x)) as [->|Hne].
      * rewrite lookup_insert_eq, Hc. simpl.
        rewrite decide_False by done. rewrite decide_True by (by left). done.
      * rewrite lookup_insert_ne by done.
        destruct (decide (ch ∈ order)) as [Hin|Hin].
        -- rewrite decide_True by (by right). done.
        -- rewrite decide_False; [done|]. intros [->|H]%elem_of_cons; done.
Qed.

Lemma elem_of_range_clients s ch : ch ∈ range_clients s <-> is_Some (clients s !! ch).
Proof.
  unfold range_clients. rewrite list_elem_of_fmap. split.
  - intros ([k v] & -> & Hin). apply elem_of_map_to_list in Hin. simpl. eauto.
  - intros [v Hv]. exists (ch, v). split; [done|]. by apply elem_of_map_to_list.
Qed.

Lemma NoDup_range_clients s : NoDup (range_clients s).
Proof. apply NoDup_fst_map_to_list. Qed.

Lemma broadcast_over_spec msg (order : list nat) s :
  writer (clientsMu s) = false ->
  NoDup order ->
  (forall ch, ch ∈ order -> exists c, chans s !! ch = Some c /\ closed c = false) ->
  exists s',
    broadcast_over order msg s = Done tt s' /\
    only_chans s s' /\
    forall ch, chans s' !! ch =
      if decide (ch ∈ order) then offer msg <$> chans s !! ch else chans s !! ch.
Proof.
  intros Hw Hnd Hlive.
  set (s1 := set_clientsMu (fun _ => mkRWMutex false (S (readers (clientsMu s)))) s).
  destruct (for_each_try_send msg order s1 Hnd) as (s2 & Hrun & Honly & Hlook).
  { intros ch Hin. destruct s; apply (Hlive ch Hin). }
  exists (set_chans (fun _ => chans s2) s). split; [|split].
  - unfold broadcast_over. erewrite bind_Done; last first.
    { unfold RLock. simpl. rewrite Hw. reflexivity. }
    fold s1. unfold defer. rewrite Hrun.
    unfold only_chans in Honly. rewrite Honly.
    destruct s as [? ? ? ? [w r] ? ? ? ? ? ? ?]; simpl in *; subst w. reflexivity.
  - apply only_chans_set.
  - intros ch. specialize (Hlook ch). destruct s; simpl in *. done.
Qed.

(** The order in which the loop visits the registry does not matter. *)
Lemma broadcast_order_irrelevant msg (order : list nat) s :
  writer (clientsMu s) = false -> registry_live s ->
  order ≡ₚ range_clients s ->
  broadcast_over order msg s = broadcast msg s.
Proof.
  intros Hw Hlive Hperm.
  assert (Hl : forall o, o ≡ₚ range_clients s ->
            forall ch, ch ∈ o -> exists c, chans s !! ch = Some c /\ closed c = false).
  { intros o Ho ch Hin. apply Hlive, elem_of_range_clients. by rewrite <- Ho. }
  assert (Hn : forall o, o ≡ₚ range_clients s -> NoDup o).
  { intros o Ho. rewrite Ho. apply NoDup_range_clients. }
  destruct (broadcast_over_spec msg order s Hw (Hn _ Hperm) (Hl _ Hperm))
    as (s1 & E1 & O1 & L1).
  destruct (broadcast_over_spec msg (range_clients s) s Hw (Hn _ (reflexivity _))
              (Hl _ (reflexivity _))) as (s2 & E2 & O2 & L2).
  unfold broadcast. unfold mbind at 1, M_bind at 1, get. rewrite E1, E2.
  f_equal. apply (only_chans_eq s); [done..|].
  apply map_eq. intros ch. rewrite L1, L2.
  destruct (decide (ch ∈ order)) as [Hin|Hin].
  - rewrite decide_True; [done|]. by rewrite <- Hperm.
  - rewrite decide_False; [done|]. by rewrite <- Hperm.
Qed.

Lemma broadcast_spec msg s :
  writer (clientsMu s) = false -> registry_live s ->
  exists s',
    broadcast msg s = Done tt s' /\
    only_chans s s' /\
    forall ch, chans s' !! ch =
      if decide (is_Some (clients s !! ch)) then offer msg <$> chans s !! ch
      else chans s !! ch.
Proof.
  intros Hw Hlive.
  destruct (broadcast_over_spec msg (range_clients s) s Hw (NoDup_range_clients s))
    as (s' & E & O & L).
  { intros ch Hin. by apply Hlive, elem_of_range_clients. }
  exists s'. split; [|split]; [done..|].
  intros ch. rewrite L.
  destruct (decide (ch ∈ range_clients s)) as [Hin|Hin].
  - rewrite decide_True; [done|]. by apply elem_of_range_clients.
  - rewrite decide_False; [done|]. by rewrite <- elem_of_range_clients.
Qed.

(** ** The invariant of the hub *)

Record hub_inv (s : State) : Prop := mk_hub_inv {
  inv_quiescent : quiescent s;
  inv_live : registry_live s;
  inv_bounded : queues_bounded s;
  inv_fresh : heap_fresh s;
  inv_market : market_tracked s;
  inv_closed : unregistered_closed s;
  inv_counter : activeTraders s = wrap64 (Z.of_nat (size (clients s)))
}.

(** [s'] has the hub of [s]: the producers change nothing else than the
    market, the counters of trades and the cursor of the oracle. *)
Definition hub_eq (s s' : State) : Prop :=
  chans s' = chans s /\ nextChan s' = nextChan s /\ clients s' = clients s /\
  clientsMu s' = clientsMu s /\ statsMu s' = statsMu s /\
  activeTraders s' = activeTraders s /\
  forall k, is_Some (cryptos s !! k) -> is_Some (cryptos s' !! k).

Lemma hub_eq_refl s : hub_eq s s.
Proof. repeat split; done. Qed.

Lemma hub_eq_trans s1 s2 s3 : hub_eq s1 s2 -> hub_eq s2 s3 -> hub_eq s1 s3.
Proof.
  intros (?&?&?&?&?&?&?) (?&?&?&?&?&?&?). repeat split; try congruence. eauto.
Qed.

Lemma hub_inv_eq s s' : hub_eq s s' -> hub_inv s -> hub_inv s'.
Proof.
  intros (Hch & Hn & Hcl & Hcm & Hsm & Ha & Hm) [[Q1 Q2] L B F Mk U C].
  split.
  - split; congruence.
  - intros ch. rewrite Hcl, Hch. apply L.
  - intros ch c. rewrite Hch. apply B.
  - intros ch. rewrite Hn, Hch. apply F.
  - intros k Hk. apply Hm, Mk, Hk.
  - intros ch c. rewrite Hch, Hcl. apply U.
  - rewrite Ha, Hcl. done.
Qed.

Lemma wrap64_small z : - 2 ^ 63 <= z < 2 ^ 63 -> wrap64 z = z.
Proof. intros H. unfold wrap64. rewrite Z.mod_small; lia. Qed.

Lemma wrap64_add z k : wrap64 (wrap64 z + k) = wrap64 (z + k).
Proof.
  unfold wrap64.
  replace ((z + 2 ^ 63) mod 2 ^ 64 - 2 ^ 63 + k + 2 ^ 63)
    with ((z + 2 ^ 63) mod 2 ^ 64 + k) by lia.
  replace (z + k + 2 ^ 63) with ((z + 2 ^ 63) + k) by lia.
  rewrite Zplus_mod_idemp_l. done.
Qed.

Lemma wrap64_sub z k : wrap64 (wrap64 z - k) = wrap64 (z - k).
Proof. apply (wrap64_add z (- k)). Qed.

Lemma broadcast_inv msg s :
  hub_inv s ->
  exists s', broadcast msg s = Done tt s' /\ hub_inv s' /\ only_chans s s'.
Proof.
  intros [[Q1 Q2] L B F Mk U C].
  destruct (broadcast_spec msg s) as (s' & E & O & Lk); [by rewrite Q1 | done |].
  exists s'. split; [done|]. split; [|done].
  assert (Hs' : s' = set_chans (fun _ => chans s') s) by exact O.
  assert (Hcl : clients s' = clients s) by (rewrite Hs'; by destruct s).
  split.
  - rewrite Hs'. by destruct s.
  - intros ch Hin. rewrite Hcl in Hin. destruct (L ch Hin) as (c & Hc & Hopen).
    exists (offer msg c). rewrite Lk, decide_True, Hc by done.
    split; [done | by apply offer_closed].
  - intros ch c. rewrite Lk. case_decide.
    + destruct (chans s !! ch) as [c0|] eqn:E0; [|done]. simpl. intros [= <-].
      destruct (B ch c0 E0) as [Hcap Hlen]. rewrite offer_cap. split; [done|].
      rewrite <- Hcap. apply offer_length. by rewrite Hcap.
    + apply B.
  - intros ch Hge. rewrite Lk.
    replace (nextChan s') with (nextChan s) in Hge by (rewrite Hs'; by destruct s).
    rewrite (F ch Hge). by case_decide.
  - rewrite Hs'. by destruct s.
  - intros ch c. rewrite Lk, Hcl. case_decide; [done | apply U].
  - rewrite Hcl. rewrite Hs'. by destruct s.
Qed.

Lemma rand_Intn_spec n s :
  n <> 0%nat ->
  exists i, (i < n)%nat /\ rand_Intn n s = Done i (set_cursor S s).
Proof.
  intros Hn. exists (Int (oracle s) (cursor s) mod n)%nat. split; [|done].
  by apply Nat.mod_upper_bound.
Qed.

Lemma hub_eq_set_cursor f s : hub_eq s (set_cursor f s).
Proof. destruct s. repeat split; done. Qed.

Lemma hub_eq_set_resp f s : hub_eq s (set_resp f s).
Proof. destruct s. repeat split; done. Qed.

(** A producer that ends in [broadcast] from a state with the same hub keeps
    the invariant and returns. *)
Lemma producer_inv (m : M unit) msg s s1 :
  hub_inv s -> hub_eq s s1 -> m s = broadcast msg s1 ->
  exists s', m s = Done tt s' /\ hub_inv s' /\ only_chans s1 s'.
Proof.
  intros Hinv Heq ->. apply broadcast_inv. by apply (hub_inv_eq s).
Qed.

Lemma generateAlert_spec s :
  exists msg, generateAlert s = broadcast msg (set_cursor (fun k => S (S (S k))) s).
Proof.
  destruct (rand_Intn_spec (length alerts) s) as (i & Hi & E); [done|].
  destruct (lookup_lt_is_Some_2 alerts i Hi) as [alert Ha].
  eexists. unfold generateAlert. erewrite bind_Done by exact E. rewrite Ha.
  unfold time_Now_UnixNano, time_Now_Format, draw, mbind, M_bind.
  destruct s; reflexivity.
Qed.

Lemma broadcastStats_spec s :
  statsMu s = unlocked ->
  exists msg, broadcastStats s = broadcast msg (set_cursor S s).
Proof.
  intros Hs. eexists. destruct s; simpl in *; subst. reflexivity.
Qed.

(** ** The price tick *)

(** The [i]-th iteration of the loop of [updatePrices] started in [s] makes
    the draws [3i], [3i+1] and [3i+2] after the cursor of [s]. *)
Definition tick_at (s : State) (i : nat) (c : Crypto) : Crypto :=
  let k := (cursor s + 3 * i)%nat in
  tick_crypto (Float64 (oracle s) k) (Float64 (oracle s) (k + 1)%nat)
    (Float64 (oracle s) (k + 2)%nat) c.

(** [s'] differs from [s] in the market and the cursor only. *)
Definition only_market (s s' : State) : Prop :=
  s' = set_cursor (fun _ => cursor s') (set_cryptos (fun _ => cryptos s') s).

Lemma only_market_hub_eq s s' :
  only_market s s' ->
  (forall k, is_Some (cryptos s !! k) -> is_Some (cryptos s' !! k)) ->
  hub_eq s s'.
Proof. intros -> H. destruct s; simpl in *. repeat split; done. Qed.

Lemma tick_symbol_spec symbol s c :
  cryptos s !! symbol = Some c ->
  tick_symbol symbol s =
    Done tt (set_cryptos <[symbol := tick_at s 0 c]> (set_cursor (fun k => k + 3)%nat s)).
Proof.
  intros Hc. unfold tick_symbol, tick_at, rand_Float64, draw, mbind, M_bind, get.
  simpl. rewrite Hc. simpl.
  replace (cursor s + 3 * 0)%nat with (cursor s) by lia.
  destruct s; simpl. unfold set_cryptos, set_cursor, modify; simpl.
  repeat f_equal; lia.
Qed.

Lemma tick_loop_spec (syms : list string) s :
  NoDup syms ->
  (forall x, x ∈ syms -> is_Some (cryptos s !! x)) ->
  exists s',
    for_each syms tick_symbol s = Done tt s' /\
    only_market s s' /\
    cursor s' = (cursor s + 3 * length syms)%nat /\
    (forall i x c, syms !! i = Some x -> cryptos s !! x = Some c ->
       cryptos s' !! x = Some (tick_at s i c)) /\
    (forall x, x ∉ syms -> cryptos s' !! x = cryptos s !! x).
Proof.
  revert s. induction syms as [|y syms IH]; intros s Hnd Htr.
  - exists s. split; [done|]. split; [by destruct s|]. split; [simpl; lia|].
    split; [intros i x c H; by rewrite lookup_nil in H | done].
  - apply NoDup_cons in Hnd as [Hy Hnd].
    destruct (Htr y) as [cy Hcy]; [by left|].
    set (s1 := set_cryptos <[y := tick_at s 0 cy]> (set_cursor (fun k => k + 3)%nat s)).
    assert (Hs1 : forall x, x <> y -> cryptos s1 !! x = cryptos s !! x).
    { intros x Hx. destruct s; simpl. by rewrite lookup_insert_ne. }
    destruct (IH s1 Hnd) as (s' & Hrun & Hom & Hcur & Hin & Hout).
    { intros x Hx. rewrite Hs1; [apply Htr; by right | by intros ->]. }
    exists s'. split; [|split; [|split; [|split]]].
    + simpl. erewrite bind_Done; [exact Hrun | by apply tick_symbol_spec].
    + unfold only_market in *. rewrite Hom. by destruct s.
    + rewrite Hcur. destruct s; simpl. lia.
    + intros [|i] x c Hi Hc; simpl in Hi.
      * injection Hi as ->. rewrite Hout by done.
        destruct s; simpl in *. rewrite lookup_insert_eq. congruence.
      * assert (x <> y) as Hxy.
        { intros ->. apply Hy. by eapply list_elem_of_lookup_2. }
        rewrite (Hin i x c Hi) by (by rewrite Hs1).
        f_equal. unfold tick_at, s1. destruct s; cbn [cursor oracle set_cryptos set_cursor].
        replace (cursor0 + 3 + 3 * i)%nat with (cursor0 + 3 * S i)%nat by lia. done.
    + intros x Hx. apply not_elem_of_cons in Hx as [Hxy Hx].
      rewrite Hout by done. by apply Hs1.
Qed.

Lemma NoDup_symbols : NoDup symbols.
Proof. apply (bool_decide_unpack _). by vm_compute. Qed.

Lemma updatePrices_spec s :
  market_tracked s ->
  exists s1 msg,
    updatePrices s = broadcast msg s1 /\
    only_market s s1 /\
    cursor s1 = (cursor s + 18)%nat /\
    (forall i x c, symbols !! i = Some x -> cryptos s !! x = Some c ->
       cryptos s1 !! x = Some (tick_at s i c)) /\
    (forall x, x ∉ symbols -> cryptos s1 !! x = cryptos s !! x).
Proof.
  intros Hm.
  destruct (tick_loop_spec symbols s NoDup_symbols Hm) as (s1 & E & O & K & I & U).
  exists s1. eexists. split; [|done].
  unfold updatePrices. erewrite bind_Done by exact E. reflexivity.
Qed.

Lemma tick_keeps_tracked s s1 :
  (forall i x c, symbols !! i = Some x -> cryptos s !! x = Some c ->
     cryptos s1 !! x = Some (tick_at s i c)) ->
  (forall x, x ∉ symbols -> cryptos s1 !! x = cryptos s !! x) ->
  forall k, is_Some (cryptos s !! k) -> is_Some (cryptos s1 !! k).
Proof.
  intros I U k [c Hc]. destruct (decide (k ∈ symbols)) as [Hin|Hin].
  - apply list_elem_of_lookup in Hin as [i Hi]. rewrite (I i k c Hi Hc). eauto.
  - rewrite U by done. eauto.
Qed.

(** ** The trade tick *)

(** The amount [generateTrade] draws in [s] for [symbol]: the third draw
    scaled by 10, and for BTC a fourth draw scaled by 2. *)
Definition drawn_amount (s : State) (symbol : string) : float :=
  if String.eqb symbol "BTC"
  then (Float64 (oracle s) (cursor s + 3)%nat * 2)%float
  else (Float64 (oracle s) (cursor s + 2)%nat * 10)%float.

(** The number of draws [generateTrade] makes before it reads the clock. *)
Definition trade_draws (symbol : string) : nat :=
  if String.eqb symbol "BTC" then 4%nat else 3%nat.

(** The trade [generateTrade] builds in [s] once it has picked [symbol],
    whose state is [crypto]. *)
Definition trade_of (s : State) (symbol : string) (crypto : Crypto) : Trade :=
  let k := (cursor s + trade_draws symbol)%nat in
  let amount := drawn_amount s symbol in
  mkTrade ("T" +:+ pretty (UnixNano (oracle s) k)) symbol
    (if (0.5 <? Float32 (oracle s) (cursor s + 1)%nat)%float then "sell" else "buy")
    (Price crypto)
    (math.Round (amount * 10000) / 10000)%float
    (math.Round (Price crypto * amount * 100) / 100)%float
    (Clock (oracle s) (k + 1)%nat).

(** The state in which [generateTrade] calls [broadcast]. *)
Definition trade_booked (s : State) (symbol : string) (t : Trade) : State :=
  set_totalVolume (fun v => (v + Trade_Total t)%float)
    (set_totalTrades (fun n => wrap64 (n + 1))
       (set_cursor (fun k => k + trade_draws symbol + 2)%nat s)).

Lemma generateTrade_spec s symbol crypto :
  statsMu s = unlocked ->
  symbols !! (Int (oracle s) (cursor s) mod length symbols)%nat = Some symbol ->
  cryptos s !! symbol = Some crypto ->
  generateTrade s =
    broadcast (mkSSEMessage "trade" (TradeData (trade_of s symbol crypto)))
      (trade_booked s symbol (trade_of s symbol crypto)).
Proof.
  intros Hs Hsym Hc. destruct s; cbn [statsMu oracle cursor cryptos] in *; subst.
  unfold trade_booked, trade_of, drawn_amount, trade_draws.
  cbv [generateTrade rand_Intn rand_Float32 rand_Float64 time_Now_UnixNano
       time_Now_Format draw mbind M_bind mret M_ret get modify panic
       set_cursor cursor oracle cryptos].
  rewrite Hsym.
  destruct (String.eqb symbol "BTC");
    cbv [set_cursor cursor oracle cryptos mbind M_bind mret M_ret]; rewrite Hc;
    cbv [Lock Unlock getMu setMu set_statsMu set_totalTrades set_totalVolume
         set_cursor statsMu writer readers unlocked orb negb Nat.eqb
         cryptos chans nextChan clients clientsMu totalTrades totalVolume
         activeTraders resp oracle cursor Trade_Total];
    rewrite !Nat.add_succ_r, !Nat.add_0_r; reflexivity.
Qed.

Lemma generateTrade_hub s :
  market_tracked s -> statsMu s = unlocked ->
  exists msg s1, generateTrade s = broadcast msg s1 /\ hub_eq s s1.
Proof.
  intros Hm Hs.
  destruct (rand_Intn_spec (length symbols) s) as (i & Hi & E); [done|].
  injection E as E.
  destruct (lookup_lt_is_Some_2 symbols i Hi) as [symbol Hsym].
  destruct (Hm symbol) as [c Hc]; [by eapply list_elem_of_lookup_2|].
  rewrite <- E in Hsym.
  do 2 eexists. split; [by apply generateTrade_spec|].
  destruct s; repeat split; done.
Qed.

(** ** The transport loop *)

Lemma sendSSE_spec w msg s :
  sendSSE w msg s =
    Done tt
      (match Marshal (oracle s) msg with
       | None => s
       | Some data =>
           set_resp (fun r => <[w := (default "" (r !! w) +:+
                                       ("event: message" +:+ nl)) +:+
                                      ("data: " +:+ data +:+ nl +:+ nl)]> r) s
       end).
Proof.
  unfold sendSSE, mbind, M_bind, get. destruct (Marshal (oracle s) msg); [|done].
  unfold Fprintf, modify. destruct s; unfold set_resp; simpl.
  rewrite lookup_insert_eq, insert_insert_eq. simpl. done.
Qed.

Lemma sendSSE_resp w msg s :
  exists f, sendSSE w msg s = Done tt (set_resp f s).
Proof.
  rewrite sendSSE_spec. destruct (Marshal (oracle s) msg); [eauto|].
  exists (fun r => r). by destruct s.
Qed.

(** The state [handleSSE] leaves once the client channel is registered. *)
Definition opened (s : State) : State :=
  set_activeTraders (fun n => wrap64 (n + 1))
    (set_clients <[nextChan s := true]>
       (set_nextChan S (set_chans <[nextChan s := mkChan [] 10 false]> s))).

Lemma handleSSE_open_spec s :
  quiescent s ->
  exists f, handleSSE_open s = Done (nextChan s) (set_resp f (opened s)).
Proof.
  intros [Hc Hs].
  destruct (sendSSE_resp (nextChan s)
              (mkSSEMessage "init"
                 (InitData ((map_to_list (cryptos s)).*2) "Connected to CryptoStream Live"))
              (opened s)) as [f Hf].
  exists f. unfold handleSSE_open.
  erewrite bind_Done by reflexivity.
  erewrite bind_Done; last first.
  { apply addClient_spec. split; destruct s; simpl in *; done. }
  erewrite bind_Done; last first.
  { unfold getCryptoList, mbind, M_bind, get. reflexivity. }
  erewrite bind_Done; last first.
  { replace (cryptos _) with (cryptos s) by (by destruct s). exact Hf. }
  by destruct s.
Qed.

Lemma size_insert_fresh (m : gmap nat bool) k v :
  m !! k = None -> size (<[k := v]> m) = S (size m).
Proof. apply map_size_insert_None. Qed.

Lemma size_delete_present (m : gmap nat bool) k :
  is_Some (m !! k) -> S (size (delete k m)) = size m.
Proof.
  intros [v Hv]. rewrite <- (insert_delete_id m k v Hv) at 2.
  rewrite map_size_insert_None; [done | apply lookup_delete_eq].
Qed.

Lemma opened_inv s : hub_inv s -> hub_inv (opened s).
Proof.
  intros [[Q1 Q2] L B F Mk U C].
  assert (Hnone : chans s !! nextChan s = None) by (by apply F).
  assert (Hreg : clients s !! nextChan s = None).
  { destruct (clients s !! nextChan s) eqn:E; [|done].
    destruct (L (nextChan s)) as (c & Hc & _); [by rewrite E | congruence]. }
  split.
  - split; by destruct s.
  - intros ch Hin. destruct s; simpl in *.
    destruct (decide (ch = nextChan0)) as [->|Hne].
    + rewrite lookup_insert_eq. eauto.
    + rewrite lookup_insert_ne in Hin by done. rewrite lookup_insert_ne by done.
      by apply L.
  - intros ch c. destruct s; simpl in *.
    destruct (decide (ch = nextChan0)) as [->|Hne].
    + rewrite lookup_insert_eq. intros [= <-]. simpl. split; [done | lia].
    + rewrite lookup_insert_ne by done. apply B.
  - intros ch Hge. destruct s; simpl in *.
    rewrite lookup_insert_ne by lia. apply F. simpl. lia.
  - by destruct s.
  - intros ch c. destruct s; simpl in *.
    destruct (decide (ch = nextChan0)) as [->|Hne].
    + rewrite !lookup_insert_eq. eauto.
    + rewrite !lookup_insert_ne by done. apply U.
  - destruct s; simpl in *. rewrite C, wrap64_add.
    rewrite size_insert_fresh by done. f_equal. lia.
Qed.

Lemma Connect_inv s s' :
  hub_inv s -> act Connect s = Done tt s' -> hub_inv s'.
Proof.
  intros Hinv. destruct (handleSSE_open_spec s (inv_quiescent s Hinv)) as [f Hf].
  simpl. erewrite bind_Done by exact Hf. intros [= <-].
  eapply hub_inv_eq; [apply hub_eq_set_resp | by apply opened_inv].
Qed.

Lemma recv_cases ch s c :
  chans s !! ch = Some c -> closed c = false ->
  recv ch s =
    match buf c with
    | msg :: rest => Done msg (set_chans <[ch := mkChan rest (cap c) false]> s)
    | [] => Block s
    end.
Proof. intros Hc Ho. unfold recv. rewrite Hc, Ho. done. Qed.

Lemma Message_inv ch s s' :
  hub_inv s -> enabled (Message ch) s -> act (Message ch) s = Done tt s' -> hub_inv s'.
Proof.
  intros Hinv Hen. pose proof Hinv as [[Q1 Q2] L B F Mk U C].
  destruct (L ch Hen) as (c & Hc & Hopen).
  simpl. unfold handleSSE_message.
  intros (msg & s1 & Hrecv & Hsend)%bind_inv_Done.
  rewrite (recv_cases ch s c Hc Hopen) in Hrecv.
  destruct (buf c) as [|m rest] eqn:Hbuf; [done|]. injection Hrecv as <- <-.
  destruct (sendSSE_resp ch m (set_chans <[ch := mkChan rest (cap c) false]> s))
    as [f Hf].
  rewrite Hf in Hsend. injection Hsend as <-.
  eapply hub_inv_eq; [apply hub_eq_set_resp|].
  destruct (B ch c Hc) as [Hcap Hlen]. rewrite Hbuf in Hlen. simpl in Hlen.
  split.
  - split; by destruct s.
  - intros ch' Hin. destruct s; simpl in *.
    destruct (decide (ch' = ch)) as [->|Hne].
    + rewrite lookup_insert_eq. eauto.
    + rewrite lookup_insert_ne by done. by apply L.
  - intros ch' c'. destruct s; simpl in *.
    destruct (decide (ch' = ch)) as [->|Hne].
    + rewrite lookup_insert_eq. intros [= <-]. simpl. split; [done | lia].
    + rewrite lookup_insert_ne by done. apply B.
  - intros ch' Hge. destruct s; simpl in *.
    destruct (decide (ch' = ch)) as [->|Hne].
    + specialize (F ch Hge). simpl in F. congruence.
    + rewrite lookup_insert_ne by done. by apply F.
  - by destruct s.
  - intros ch' c'. destruct s; simpl in *.
    destruct (decide (ch' = ch)) as [->|Hne]; [done|].
    rewrite lookup_insert_ne by done. apply U.
  - by destruct s.
Qed.

(** The state [removeClient ch] leaves when [ch] is an open channel [c]. *)
Definition removed (ch : nat) (c : Chan) (s : State) : State :=
  set_activeTraders (fun n => wrap64 (n - 1))
    (set_chans <[ch := mkChan (buf c) (cap c) true]>
       (set_clients (delete ch) s)).

Lemma removed_inv ch c s :
  hub_inv s -> is_Some (clients s !! ch) -> chans s !! ch = Some c ->
  hub_inv (removed ch c s).
Proof.
  intros [[Q1 Q2] L B F Mk U C] Hin Hc.
  split.
  - split; by destruct s.
  - intros ch' Hin'. destruct s; simpl in *.
    destruct (decide (ch' = ch)) as [->|Hne].
    + rewrite lookup_delete_eq in Hin'. by destruct Hin'.
    + rewrite lookup_delete_ne in Hin' by done. rewrite lookup_insert_ne by done.
      by apply L.
  - intros ch' c'. destruct s; simpl in *.
    destruct (decide (ch' = ch)) as [->|Hne].
    + rewrite lookup_insert_eq. intros [= <-]. simpl. by apply (B ch).
    + rewrite lookup_insert_ne by done. apply B.
  - intros ch' Hge. destruct s; simpl in *.
    destruct (decide (ch' = ch)) as [->|Hne].
    + specialize (F ch Hge). simpl in F. congruence.
    + rewrite lookup_insert_ne by done. by apply F.
  - by destruct s.
  - intros ch' c'. destruct s; simpl in *.
    destruct (decide (ch' = ch)) as [->|Hne].
    + rewrite lookup_insert_eq. by intros [= <-].
    + rewrite lookup_insert_ne, lookup_delete_ne by done. apply U.
  - destruct s; simpl in *. rewrite C, wrap64_sub.
    rewrite <- (size_delete_present clients0 ch Hin). f_equal. lia.
Qed.

Lemma Disconnect_inv ch s s' :
  hub_inv s -> enabled (Disconnect ch) s -> act (Disconnect ch) s = Done tt s' ->
  hub_inv s'.
Proof.
  intros Hinv Hen. destruct (inv_live s Hinv ch Hen) as (c & Hc & Hopen).
  simpl. unfold handleSSE_done.
  rewrite (removeClient_open ch s c (inv_quiescent s Hinv) Hc Hopen).
  intros [= <-]. by apply removed_inv.
Qed.

Lemma Send_inv msg ch s s' :
  hub_inv s -> enabled (Send msg ch) s -> act (Send msg ch) s = Done tt s' -> hub_inv s'.
Proof.
  intros Hinv Hen. pose proof Hinv as [[Q1 Q2] L B F Mk U C].
  destruct (L ch Hen) as (c & Hc & Hopen).
  simpl. rewrite (try_send_open msg ch s c Hc Hopen). intros [= <-].
  destruct (B ch c Hc) as [Hcap Hlen].
  split.
  - split; by destruct s.
  - intros ch' Hin. destruct s; simpl in *.
    destruct (decide (ch' = ch)) as [->|Hne].
    + rewrite lookup_insert_eq. eexists. split; [done | by apply offer_closed].
    + rewrite lookup_insert_ne by done. by apply L.
  - intros ch' c'. destruct s; simpl in *.
    destruct (decide (ch' = ch)) as [->|Hne].
    + rewrite lookup_insert_eq. intros [= <-]. rewrite offer_cap. split; [done|].
      rewrite <- Hcap. apply offer_length. by rewrite Hcap.
    + rewrite lookup_insert_ne by done. apply B.
  - intros ch' Hge. destruct s; simpl in *.
    destruct (decide (ch' = ch)) as [->|Hne].
    + specialize (F ch Hge). simpl in F. congruence.
    + rewrite lookup_insert_ne by done. by apply F.
  - by destruct s.
  - intros ch' c'. destruct s; simpl in *.
    destruct (decide (ch' = ch)) as [->|Hne]; [done|].
    rewrite lookup_insert_ne by done. apply U.
  - by destruct s.
Qed.

Lemma init_inv o : hub_inv (init_state o).
Proof.
  split.
  - done.
  - intros ch [v Hv]. simpl in Hv. by rewrite lookup_empty in Hv.
  - intros ch c Hc. simpl in Hc. by rewrite lookup_empty in Hc.
  - intros ch _. apply lookup_empty.
  - intros symbol Hin. simpl. unfold symbols in Hin.
    repeat (apply elem_of_cons in Hin as [->|Hin];
            [apply (bool_decide_unpack _); by vm_compute|]).
    by apply elem_of_nil in Hin.
  - intros ch c Hc. simpl in Hc. by rewrite lookup_empty in Hc.
  - simpl. by rewrite map_size_empty.
Qed.

Lemma act_inv a s s' :
  hub_inv s -> enabled a s -> act a s = Done tt s' -> hub_inv s'.
Proof.
  intros Hinv Hen Hact. destruct a.
  - by apply (Connect_inv s).
  - by apply (Message_inv ch s).
  - by apply (Disconnect_inv ch s).
  - simpl in Hact.
    destruct (updatePrices_spec s (inv_market s Hinv)) as (s1 & msg & E & O & _ & I & U).
    destruct (producer_inv updatePrices msg s s1 Hinv) as (s2 & E2 & Hinv2 & _);
      [|done|].
    { apply only_market_hub_eq; [done|]. by apply tick_keeps_tracked. }
    congruence.
  - simpl in Hact.
    destruct (generateTrade_hub s (inv_market s Hinv)) as (msg & s1 & E & Heq).
    { apply (inv_quiescent s Hinv). }
    destruct (producer_inv generateTrade msg s s1 Hinv Heq E) as (s2 & E2 & Hinv2 & _).
    congruence.
  - simpl in Hact. destruct (generateAlert_spec s) as (msg & E).
    destruct (producer_inv generateAlert msg s _ Hinv (hub_eq_set_cursor _ s) E)
      as (s2 & E2 & Hinv2 & _).
    congruence.
  - simpl in Hact.
    destruct (broadcastStats_spec s) as (msg & E); [apply (inv_quiescent s Hinv)|].
    destruct (producer_inv broadcastStats msg s _ Hinv (hub_eq_set_cursor _ s) E)
      as (s2 & E2 & Hinv2 & _).
    congruence.
  - by apply (Send_inv msg ch s).
Qed.

Lemma steps_inv s acts s' : hub_inv s -> steps s acts s' -> hub_inv s'.
Proof.
  intros Hinv Hst. induction Hst as [|s s1 s2 a acts Hen Hact _ IH]; [done|].
  apply IH. by apply (act_inv a s).
Qed.

(** Every state the program reaches satisfies the invariant of the hub. *)
Lemma reachable_inv s : reachable s -> hub_inv s.
Proof. intros (o & acts & Hst). eapply steps_inv; [apply init_inv | done]. Qed.

(** ** What an action leaves alone *)

Definition producer (a : Action) : Prop :=
  match a with
  | PriceTick | TradeTick | AlertTick | StatsTick => True
  | _ => False
  end.

(** A producer changes the market, the trade counters and the cursor, and
    then calls [broadcast] once. *)
Lemma producer_broadcasts a s :
  hub_inv s -> producer a ->
  exists msg s1, act a s = broadcast msg s1 /\ hub_eq s s1.
Proof.
  intros Hinv Hp. destruct a; try done; simpl.
  - destruct (updatePrices_spec s (inv_market s Hinv)) as (s1 & msg & E & O & _ & I & U).
    exists msg, s1. split; [done|].
    apply only_market_hub_eq; [done|]. by apply tick_keeps_tracked.
  - apply generateTrade_hub; [apply (inv_market s Hinv) | apply (inv_quiescent s Hinv)].
  - destruct (generateAlert_spec s) as (msg & E). eauto using hub_eq_set_cursor.
  - destruct (broadcastStats_spec s) as (msg & E); [apply (inv_quiescent s Hinv)|].
    eauto using hub_eq_set_cursor.
Qed.

Lemma removeClient_nil ch s :
  quiescent s -> chans s !! ch = None ->
  exists s', removeClient ch s = Panic "close of nil channel" s'.
Proof.
  intros [Hc Hs] Hch. destruct s; simpl in *; subst.
  unfold removeClient, mbind, M_bind, close; simpl. rewrite Hch. eauto.
Qed.

(** [removeClient] returns on an open channel only. *)
Lemma removeClient_Done ch s s1 :
  quiescent s -> removeClient ch s = Done tt s1 ->
  exists c, chans s !! ch = Some c /\ closed c = false /\ s1 = removed ch c s.
Proof.
  intros Hq Hrun. destruct (chans s !! ch) as [c|] eqn:Hc.
  - destruct (closed c) eqn:Ho.
    + rewrite (removeClient_closed ch s c Hq Hc Ho) in Hrun. done.
    + rewrite (removeClient_open ch s c Hq Hc Ho) in Hrun. injection Hrun as <-. eauto.
  - destruct (removeClient_nil ch s Hq Hc) as [s' E]. congruence.
Qed.

Lemma act_frame a ch s s' :
  hub_inv s -> enabled a s -> act a s = Done tt s' ->
  clients s !! ch = None -> is_Some (chans s !! ch) ->
  clients s' !! ch = None /\ chans s' !! ch = chans s !! ch.
Proof.
  intros Hinv Hen Hact Hreg Hheap. pose proof Hinv as [[Q1 Q2] L B F Mk U C].
  assert (Hne : forall ch', is_Some (clients s !! ch') -> ch' <> ch).
  { intros ch' [v Hv] ->. congruence. }
  destruct a; simpl in Hen.
  - destruct (handleSSE_open_spec s (conj Q1 Q2)) as [f Hf].
    simpl in Hact. erewrite bind_Done in Hact by exact Hf. injection Hact as <-.
    assert (nextChan s <> ch) as Hn.
    { intros <-. rewrite (F (nextChan s)) in Hheap by lia. by destruct Hheap. }
    destruct s; simpl in *. by rewrite !lookup_insert_ne.
  - destruct (L ch0 Hen) as (c & Hc & Hopen).
    simpl in Hact. unfold handleSSE_message in Hact.
    apply bind_inv_Done in Hact as (msg & s1 & Hrecv & Hsend).
    rewrite (recv_cases ch0 s c Hc Hopen) in Hrecv.
    destruct (buf c) as [|m rest]; [done|]. injection Hrecv as <- <-.
    destruct (sendSSE_resp ch0 m (set_chans <[ch0 := mkChan rest (cap c) false]> s))
      as [f Hf].
    rewrite Hf in Hsend. injection Hsend as <-.
    specialize (Hne ch0 Hen). destruct s; simpl in *. by rewrite lookup_insert_ne.
  - destruct (L ch0 Hen) as (c & Hc & Hopen).
    simpl in Hact. unfold handleSSE_done in Hact.
    rewrite (removeClient_open ch0 s c (conj Q1 Q2) Hc Hopen) in Hact.
    injection Hact as <-. specialize (Hne ch0 Hen).
    destruct s; simpl in *. by rewrite lookup_delete_ne, lookup_insert_ne.
  - destruct (producer_broadcasts PriceTick s Hinv I) as (msg & s1 & E & Heq).
    rewrite E in Hact. pose proof (hub_inv_eq s s1 Heq Hinv) as Hinv1.
    destruct Heq as (Hch & _ & Hcl & Hcm & _).
    destruct (broadcast_spec msg s1) as (s2 & E2 & O2 & L2);
      [by rewrite Hcm, Q1 | apply (inv_live s1 Hinv1) |].
    rewrite E2 in Hact. injection Hact as <-.
    rewrite L2, decide_False, Hch by (rewrite Hcl, Hreg; by intros [? ?]).
    split; [|done]. rewrite O2. destruct s1; simpl in *. congruence.
  - destruct (producer_broadcasts TradeTick s Hinv I) as (msg & s1 & E & Heq).
    rewrite E in Hact. pose proof (hub_inv_eq s s1 Heq Hinv) as Hinv1.
    destruct Heq as (Hch & _ & Hcl & Hcm & _).
    destruct (broadcast_spec msg s1) as (s2 & E2 & O2 & L2);
      [by rewrite Hcm, Q1 | apply (inv_live s1 Hinv1) |].
    rewrite E2 in Hact. injection Hact as <-.
    rewrite L2, decide_False, Hch by (rewrite Hcl, Hreg; by intros [? ?]).
    split; [|done]. rewrite O2. destruct s1; simpl in *. congruence.
  - destruct (producer_broadcasts AlertTick s Hinv I) as (msg & s1 & E & Heq).
    rewrite E in Hact. pose proof (hub_inv_eq s s1 Heq Hinv) as Hinv1.
    destruct Heq as (Hch & _ & Hcl & Hcm & _).
    destruct (broadcast_spec msg s1) as (s2 & E2 & O2 & L2);
      [by rewrite Hcm, Q1 | apply (inv_live s1 Hinv1) |].
    rewrite E2 in Hact. injection Hact as <-.
    rewrite L2, decide_False, Hch by (rewrite Hcl, Hreg; by intros [? ?]).
    split; [|done]. rewrite O2. destruct s1; simpl in *. congruence.
  - destruct (producer_broadcasts StatsTick s Hinv I) as (msg & s1 & E & Heq).
    rewrite E in Hact. pose proof (hub_inv_eq s s1 Heq Hinv) as Hinv1.
    destruct Heq as (Hch & _ & Hcl & Hcm & _).
    destruct (broadcast_spec msg s1) as (s2 & E2 & O2 & L2);
      [by rewrite Hcm, Q1 | apply (inv_live s1 Hinv1) |].
    rewrite E2 in Hact. injection Hact as <-.
    rewrite L2, decide_False, Hch by (rewrite Hcl, Hreg; by intros [? ?]).
    split; [|done]. rewrite O2. destruct s1; simpl in *. congruence.
  - destruct (L ch0 Hen) as (c & Hc & Hopen).
    simpl in Hact. rewrite (try_send_open msg ch0 s c Hc Hopen) in Hact.
    injection Hact as <-. specialize (Hne ch0 Hen).
    destruct s; simpl in *. by rewrite lookup_insert_ne.
Qed.

Lemma steps_frame acts ch s s' :
  hub_inv s -> steps s acts s' ->
  clients s !! ch = None -> is_Some (chans s !! ch) ->
  clients s' !! ch = None /\ chans s' !! ch = chans s !! ch.
Proof.
  intros Hinv Hst. induction Hst as [|s s1 s2 a acts Hen Hact _ IH]; [done|].
  intros Hreg Hheap.
  destruct (act_frame a ch s s1 Hinv Hen Hact Hreg Hheap) as [Hreg1 Hch1].
  rewrite <- Hch1. apply IH; [by apply (act_inv a s) | done | by rewrite Hch1].
Qed.

(** ** Sample runs *)

Definition payload_floats (d : Payload) : list float :=
  let of_crypto c := [Price c; Change24h c; Volume c; High24h c; Low24h c] in
  match d with
  | PricesData cs | InitData cs _ => flat_map of_crypto cs
  | TradeData t => [Trade_Price t; Trade_Amount t; Trade_Total t]
  | StatsData _ v _ _ => [v]
  | AlertData _ | NilData => []
  end.

(** [json.Marshal] refuses a value that holds a NaN or an infinity; the text
    it makes of the others is of no concern here. *)
Definition sample_marshal (msg : SSEMessage) : option string :=
  if forallb is_finite (payload_floats (Data msg))
  then Some ("{" +:+ Event msg +:+ "}")
  else None.

Definition sample_oracle : Oracle :=
  mkOracle (fun k => if Nat.even k then 0.25 else 0.75)%float
    (fun _ => 0.7%float) (fun k => k)
    (fun k => Z.of_nat k + 1700000000000000000) (fun _ => "12:00:00")
    sample_marshal.

(** One subscriber is connected. *)
Definition one_client : State := final (act Connect (init_state sample_oracle)).

Lemma one_client_reachable : reachable one_client.
Proof.
  exists sample_oracle, [Connect].
  eapply steps_cons; [done | by vm_compute | apply steps_nil].
Qed.

Definition sample_alert : SSEMessage :=
  mkSSEMessage "alert" (AlertData (mkAlert "A1" "info" "Market Update" "" "12:00:00")).

(** ** The claims on the hub *)

(** C1. In every state the program reaches, [broadcast msg] returns (it
    neither waits nor panics), in whatever order the loop visits the
    registry; what it changes is the channels only: every sink of the
    registry whose queue holds fewer than 10 items gets [msg] appended once,
    every sink whose queue is full is left as it is, and no queue holds more
    than 10 items before or after. *)
Theorem publish_appends_or_drops (s : State) (msg : SSEMessage) :
  reachable s ->
  queues_bounded s /\
  exists s',
    broadcast msg s = Done tt s' /\
    (forall order, order ≡ₚ range_clients s -> broadcast_over order msg s = Done tt s') /\
    only_chans s s' /\
    (forall ch, is_Some (clients s !! ch) ->
       exists c, chans s !! ch = Some c /\ cap c = 10%nat /\
         chans s' !! ch =
           Some (if (length (buf c) <? 10)%nat
                 then mkChan (buf c ++ [msg]) 10 false else c)) /\
    (forall ch, clients s !! ch = None -> chans s' !! ch = chans s !! ch) /\
    queues_bounded s'.
Proof.
  intros Hinv%reachable_inv. pose proof Hinv as [[Q1 Q2] L B F Mk U C].
  split; [done|].
  destruct (broadcast_spec msg s) as (s' & E & O & Lk); [by rewrite Q1 | done |].
  destruct (broadcast_inv msg s Hinv) as (s'' & E' & Hinv' & _).
  assert (s'' = s') as -> by congruence.
  exists s'. repeat split.
  - done.
  - intros order Hperm. rewrite broadcast_order_irrelevant; [done | by rewrite Q1 | done..].
  - done.
  - intros ch Hin. destruct (L ch Hin) as (c & Hc & Hopen).
    destruct (B ch c Hc) as [Hcap Hlen].
    exists c. split; [done|]. split; [done|].
    rewrite Lk, decide_True, Hc by done. simpl. unfold offer. by rewrite Hcap.
  - intros ch Hnone. rewrite Lk, decide_False; [done|]. rewrite Hnone. by intros [? ?].
  - apply (inv_bounded s' Hinv' ch c H).
  - apply (inv_bounded s' Hinv' ch c H).
Qed.

Lemma publish_appends_or_drops_witness :
  exists s', broadcast sample_alert one_client = Done tt s' /\
    chans s' !! 0%nat = Some (mkChan [sample_alert] 10 false).
Proof.
  destruct (publish_appends_or_drops one_client sample_alert one_client_reachable)
    as (_ & s' & E & _ & _ & Hreg & _).
  exists s'. split; [exact E|].
  destruct (Hreg 0%nat) as (c & Hc & _ & Hc'); [by vm_compute; eauto|].
  rewrite Hc'. vm_compute in Hc. injection Hc as <-. reflexivity.
Defined.

(** C6. Once [removeClient ch] has returned, whatever the program does next
    (other connections come and go, the producers publish, broadcast loops
    send) leaves [ch] out of the registry and its channel, queue included,
    as [removeClient] left it; so does any [broadcast] made then. *)
Theorem unregistered_sink_untouched
    (s s1 s2 : State) (ch : nat) (acts : list Action) (msg : SSEMessage) :
  reachable s ->
  removeClient ch s = Done tt s1 ->
  steps s1 acts s2 ->
  clients s2 !! ch = None /\
  chans s2 !! ch = chans s1 !! ch /\
  exists s3, broadcast msg s2 = Done tt s3 /\ chans s3 !! ch = chans s1 !! ch.
Proof.
  intros Hinv%reachable_inv Hrm Hst.
  destruct (removeClient_Done ch s s1 (inv_quiescent s Hinv) Hrm) as (c & Hc & Hopen & ->).
  assert (Hin : is_Some (clients s !! ch)) by (by apply (inv_closed s Hinv ch c)).
  pose proof (removed_inv ch c s Hinv Hin Hc) as Hinv1.
  assert (Hreg1 : clients (removed ch c s) !! ch = None).
  { destruct s; simpl. apply lookup_delete_eq. }
  assert (Hheap1 : is_Some (chans (removed ch c s) !! ch)).
  { destruct s; simpl. rewrite lookup_insert_eq. eauto. }
  destruct (steps_frame acts ch _ s2 Hinv1 Hst Hreg1 Hheap1) as [Hreg2 Hch2].
  split; [done|]. split; [done|].
  pose proof (steps_inv _ acts s2 Hinv1 Hst) as Hinv2.
  destruct (broadcast_spec msg s2) as (s3 & E & O & Lk);
    [by rewrite (proj1 (inv_quiescent s2 Hinv2)) | apply (inv_live s2 Hinv2) |].
  exists s3. split; [done|].
  rewrite Lk, decide_False, Hch2; [done|]. rewrite Hreg2. by intros [? ?].
Qed.

Lemma unregistered_sink_untouched_witness :
  let s1 := final (removeClient 0 one_client) in
  let s2 := final (act AlertTick s1) in
  chans s2 !! 0%nat = Some (mkChan [] 10 true).
Proof.
  intros s1 s2.
  destruct (unregistered_sink_untouched one_client s1 s2 0 [AlertTick] sample_alert
              one_client_reachable) as (_ & Hch & _).
  - by vm_compute.
  - eapply steps_cons; [done | by vm_compute | apply steps_nil].
  - rewrite Hch. by vm_compute.
Defined.

Lemma removeClient_Done_quiescent ch s s1 :
  removeClient ch s = Done tt s1 -> quiescent s.
Proof.
  destruct s as [? ? ? ? [w r] ? ? ? [w2 r2] ? ? ?].
  unfold removeClient, mbind, M_bind, Lock, Unlock, close, modify. simpl.
  destruct w; [done|]. destruct r; [|done]. simpl.
  destruct (chans0 !! ch) as [c|]; [|done]. destruct (closed c); [done|]. simpl.
  destruct w2; [done|]. destruct r2; [|done]. done.
Qed.

(** C2, as the code has it.  After [removeClient ch] has returned, a second
    [removeClient ch] does not return: [delete] finds nothing to remove,
    [close] panics on the channel that is already closed, and the panic
    leaves [clientsMu] locked; the registry, the channel and
    [activeTraders] are as the first call left them. *)
Theorem second_unregister_panics (s s1 : State) (ch : nat) :
  removeClient ch s = Done tt s1 ->
  removeClient ch s1 =
    Panic "close of closed channel" (set_clientsMu (fun _ => mkRWMutex true 0) s1).
Proof.
  intros Hrm. pose proof (removeClient_Done_quiescent ch s s1 Hrm) as Hq.
  destruct (removeClient_Done ch s s1 Hq Hrm) as (c & Hc & Hopen & ->).
  rewrite (removeClient_closed ch _ (mkChan (buf c) (cap c) true)).
  - f_equal. destruct s; unfold removed, set_clients, set_clientsMu; simpl.
    by rewrite delete_delete_eq.
  - destruct Hq. split; by destruct s.
  - destruct s; simpl. apply lookup_insert_eq.
  - done.
Qed.

Lemma second_unregister_panics_witness :
  removeClient 0 (final (removeClient 0 one_client)) =
    Panic "close of closed channel"
      (set_clientsMu (fun _ => mkRWMutex true 0) (final (removeClient 0 one_client))).
Proof.
  apply (second_unregister_panics one_client). by vm_compute.
Defined.

(** C2, as it is stated, fails: with one subscriber connected and then
    unregistered, the second [removeClient] is not a no-op that returns. *)
Lemma second_unregister_not_noop :
  let s1 := final (removeClient 0 one_client) in
  removeClient 0 one_client = Done tt s1 /\
  removeClient 0 s1 <> Done tt s1 /\
  clientsMu (final (removeClient 0 s1)) <> clientsMu s1.
Proof.
  intros s1. split; [by vm_compute|]. split.
  - subst s1. vm_compute. discriminate.
  - by vm_compute.
Qed.

(** The number of registrations and of removals in a sequence. *)
Fixpoint registrations (ops : list RegOp) : nat :=
  match ops with
  | [] => 0
  | Register _ :: ops' => S (registrations ops')
  | Unregister _ :: ops' => registrations ops'
  end.

Fixpoint removals (ops : list RegOp) : nat :=
  match ops with
  | [] => 0
  | Register _ :: ops' => removals ops'
  | Unregister _ :: ops' => S (removals ops')
  end.

Lemma run_op_ok op s :
  quiescent s -> registry_live s -> op_ok op s ->
  exists s',
    run_op op s = Done tt s' /\ quiescent s' /\ registry_live s' /\
    (size (clients s') + removals [op] = size (clients s) + registrations [op])%nat /\
    activeTraders s' =
      wrap64 (activeTraders s + Z.of_nat (registrations [op]) - Z.of_nat (removals [op])).
Proof.
  intros Hq Hlive Hok. destruct op as [ch|ch]; simpl in Hok.
  - destruct Hok as (Hnone & c & Hc & Hopen).
    eexists. split; [by apply addClient_spec|].
    split; [destruct Hq; split; by destruct s|]. split; [|split].
    + intros ch' Hin. destruct s; simpl in *.
      destruct (decide (ch' = ch)) as [->|Hne]; [eauto|].
      rewrite lookup_insert_ne in Hin by done. by apply Hlive.
    + destruct s; simpl in *. rewrite size_insert_fresh by done. lia.
    + destruct s; simpl. f_equal. lia.
  - destruct (Hlive ch Hok) as (c & Hc & Hopen).
    eexists. split; [by apply removeClient_open|].
    split; [destruct Hq; split; by destruct s|]. split; [|split].
    + intros ch' Hin. destruct s; simpl in *.
      destruct (decide (ch' = ch)) as [->|Hne].
      * rewrite lookup_delete_eq in Hin. by destruct Hin.
      * rewrite lookup_delete_ne in Hin by done. rewrite lookup_insert_ne by done.
        by apply Hlive.
    + destruct s; simpl in *. rewrite <- (size_delete_present clients0 ch Hok). lia.
    + destruct s; simpl. f_equal. lia.
Qed.

Lemma registrations_cons op ops :
  registrations (op :: ops) = (registrations [op] + registrations ops)%nat.
Proof. by destruct op. Qed.

Lemma removals_cons op ops :
  removals (op :: ops) = (removals [op] + removals ops)%nat.
Proof. by destruct op. Qed.

Lemma run_ops_ok ops s :
  quiescent s -> registry_live s ->
  activeTraders s = wrap64 (Z.of_nat (size (clients s))) ->
  ops_ok ops s ->
  exists s',
    run_ops ops s = Done tt s' /\
    (size (clients s') + removals ops = size (clients s) + registrations ops)%nat /\
    activeTraders s' = wrap64 (Z.of_nat (size (clients s'))).
Proof.
  revert s. induction ops as [|op ops IH]; intros s Hq Hlive Hcount Hok.
  - exists s. split; [done|]. split; [done|]. done.
  - destruct Hok as [Hop Hok].
    destruct (run_op_ok op s Hq Hlive Hop) as (s1 & Hrun & Hq1 & Hlive1 & Hsize1 & Hact1).
    rewrite Hrun in Hok. simpl in Hok.
    destruct (IH s1 Hq1 Hlive1) as (s' & Hrun' & Hsize' & Hact'); [|done|].
    { rewrite Hact1, Hcount.
      replace (wrap64 (Z.of_nat (size (clients s))) + Z.of_nat (registrations [op])
               - Z.of_nat (removals [op]))
        with (wrap64 (Z.of_nat (size (clients s)))
              + (Z.of_nat (registrations [op]) - Z.of_nat (removals [op]))) by lia.
      rewrite wrap64_add. f_equal. lia. }
    exists s'. split; [|split; [|done]].
    + unfold run_ops. simpl. erewrite bind_Done by exact Hrun. exact Hrun'.
    + rewrite registrations_cons, removals_cons. lia.
Qed.

(** C10, as the code has it.  Start where [activeTraders] counts the
    registry and no lock is held, and run registry operations in which every
    [addClient] is given an open channel that is not in the registry and
    every [removeClient] a sink that is.  Then the run returns, the registry
    has grown by one sink for each [addClient] and lost one for each
    [removeClient], [activeTraders] has moved by the same amounts (in 64-bit
    arithmetic), and it is the number of sinks in the registry. *)
Theorem counter_counts_registry (s : State) (ops : list RegOp) :
  quiescent s ->
  registry_live s ->
  activeTraders s = wrap64 (Z.of_nat (size (clients s))) ->
  ops_ok ops s ->
  exists s',
    run_ops ops s = Done tt s' /\
    (size (clients s') + removals ops = size (clients s) + registrations ops)%nat /\
    activeTraders s' =
      wrap64 (activeTraders s + Z.of_nat (registrations ops) - Z.of_nat (removals ops)) /\
    activeTraders s' = wrap64 (Z.of_nat (size (clients s'))) /\
    (Z.of_nat (size (clients s')) < 2 ^ 63 ->
     activeTraders s' = Z.of_nat (size (clients s'))).
Proof.
  intros Hq Hlive Hcount Hok.
  destruct (run_ops_ok ops s Hq Hlive Hcount Hok) as (s' & Hrun & Hsize & Hact).
  exists s'. split; [done|]. split; [done|]. split; [|split; [done|]].
  - rewrite Hact, Hcount.
    replace (wrap64 (Z.of_nat (size (clients s))) + Z.of_nat (registrations ops)
             - Z.of_nat (removals ops))
      with (wrap64 (Z.of_nat (size (clients s)))
            + (Z.of_nat (registrations ops) - Z.of_nat (removals ops))) by lia.
    rewrite wrap64_add. f_equal. lia.
  - intros Hsmall. rewrite Hact. apply wrap64_small. lia.
Qed.

(** A channel has been made and nothing else has happened. *)
Definition one_channel : State := final (make_chan 10 (init_state sample_oracle)).

Lemma counter_counts_registry_witness :
  exists s',
    run_ops [Register 0; Unregister 0] one_channel = Done tt s' /\
    activeTraders s' = Z.of_nat (size (clients s')).
Proof.
  destruct (counter_counts_registry one_channel [Register 0; Unregister 0])
    as (s' & Hrun & Hsize & _ & _ & Hsmall).
  - split; reflexivity.
  - intros ch [v Hv]. vm_compute in Hv. discriminate.
  - reflexivity.
  - split; [|split; [|exact I]].
    + split; [reflexivity|]. eexists. split; reflexivity.
    + vm_compute. eauto.
  - exists s'. split; [exact Hrun|]. apply Hsmall.
    assert (size (clients one_channel) = 0%nat) as E0 by reflexivity.
    rewrite E0 in Hsize. simpl in Hsize. lia.
Defined.

(** C10, as it is stated, fails: no [removeClient] is run at all, yet
    registering one sink twice leaves one sink in the registry and 2 in
    [activeTraders]. *)
Lemma double_register_miscounts :
  let ops := [Register 0; Register 0] in
  unregisters_registered ∅ ops = true /\
  activeTraders one_channel = Z.of_nat (size (clients one_channel)) /\
  exists s',
    run_ops ops one_channel = Done tt s' /\
    size (clients s') = 1%nat /\ activeTraders s' = 2.
Proof.
  split; [reflexivity|]. split; [reflexivity|].
  eexists. split; [by vm_compute|]. split; by vm_compute.
Qed.

(** C9. When [json.Marshal] fails on [msg], [sendSSE] returns and has
    written nothing: the state, with the text of every connection, is as it
    was.  The turn of the loop of [handleSSE] that takes such a [msg] from
    its channel returns as well, and its whole effect is that [msg] has left
    the queue of this connection: the registry, the other channels and the
    text of every connection are untouched. *)
Theorem marshal_failure_skips
    (s : State) (ch : nat) (c : Chan) (msg : SSEMessage) (rest : list SSEMessage) :
  chans s !! ch = Some c ->
  buf c = msg :: rest ->
  Marshal (oracle s) msg = None ->
  (forall w, sendSSE w msg s = Done tt s) /\
  exists s',
    handleSSE_message ch s = Done tt s' /\
    s' = set_chans <[ch := mkChan rest (cap c) (closed c)]> s /\
    resp s' = resp s /\ clients s' = clients s /\
    (forall ch', ch' <> ch -> chans s' !! ch' = chans s !! ch').
Proof.
  intros Hc Hbuf Hfail. split.
  - intros w. by rewrite sendSSE_spec, Hfail.
  - eexists. split; [|split; [reflexivity|]].
    + unfold handleSSE_message. erewrite bind_Done; last first.
      { unfold recv. rewrite Hc, Hbuf. reflexivity. }
      rewrite sendSSE_spec.
      replace (oracle _) with (oracle s) by (by destruct s). by rewrite Hfail.
    + destruct s; simpl. split; [done|]. split; [done|].
      intros ch' Hne. by rewrite lookup_insert_ne.
Qed.

(** A queued statistics event whose volume is not a number. *)
Definition nan_stats : SSEMessage :=
  mkSSEMessage "stats" (StatsData 0 nan 1 "12:00:00").

Lemma marshal_failure_skips_witness :
  let s := final (try_send nan_stats 0 one_client) in
  resp (final (handleSSE_message 0 s)) = resp s /\
  buf <$> chans (final (handleSSE_message 0 s)) !! 0%nat = Some [].
Proof.
  intros s.
  destruct (marshal_failure_skips s 0 (mkChan [nan_stats] 10 false) nan_stats [])
    as (_ & s' & Hrun & -> & Hresp & _); [reflexivity..|].
  rewrite Hrun. split; [exact Hresp|]. reflexivity.
Defined.

(** ** The locks and the market state *)

(** A mutex that some other goroutine holds for writing. *)
Definition held : RWMutex := mkRWMutex true 0.

(** Every mutex of the program is held by other goroutines. *)
Definition all_held (s : State) : State :=
  set_statsMu (fun _ => held) (set_clientsMu (fun _ => held) s).

(** The price a list of snapshots gives for [symbol]. *)
Definition price_in (cs : list Crypto) (symbol : string) : option float :=
  Price <$> List.find (fun c => String.eqb (Symbol c) symbol) cs.

(** The loop of [updatePrices] neither takes nor needs a mutex: whatever the
    mutexes are, it runs to its end and leaves them as they were. *)
Lemma tick_loop_takes_no_lock s :
  market_tracked s ->
  exists s1,
    for_each symbols tick_symbol s = Done tt s1 /\
    clientsMu s1 = clientsMu s /\ statsMu s1 = statsMu s /\
    forall i x c, symbols !! i = Some x -> cryptos s !! x = Some c ->
      cryptos s1 !! x = Some (tick_at s i c).
Proof.
  intros Hm.
  destruct (tick_loop_spec symbols s NoDup_symbols Hm) as (s1 & E & O & _ & I & _).
  exists s1. split; [done|]. rewrite O. by destruct s.
Qed.

(** [getCryptoList] takes no mutex either. *)
Lemma getCryptoList_takes_no_lock s :
  getCryptoList s = Done ((map_to_list (cryptos s)).*2) s.
Proof. reflexivity. Qed.

(** C7 fails on the code.  With [clientsMu] and [statsMu] both held by other
    goroutines, the loop of [updatePrices] still runs and rewrites the
    market ([updatePrices] waits only afterwards, in [broadcast]), and
    [getCryptoList] still reads it, while [generateTrade] does wait for
    [statsMu] before it touches the counters.  A snapshot taken by
    [getCryptoList] after the first turn of the loop has the new price of
    BTC beside the old price of ETH. *)
Theorem market_state_unguarded :
  let s := all_held (init_state sample_oracle) in
  let tick := final (for_each symbols tick_symbol s) in
  let mid := final (for_each (take 1 symbols) tick_symbol s) in
  (* the tick ran to its end under foreign locks and changed the market *)
  for_each symbols tick_symbol s = Done tt tick /\
  updatePrices s = Block (set_clientsMu (fun _ => held) tick) /\
  Price <$> cryptos s !! "BTC" = Some 43250%float /\
  Price <$> cryptos tick !! "BTC" = Some 42817.5%float /\
  Price <$> cryptos s !! "ETH" = Some 2280%float /\
  Price <$> cryptos tick !! "ETH" = Some 2302.8000000000002%float /\
  (* the snapshot is read under foreign locks, and in the middle it is torn *)
  (exists snap, getCryptoList mid = Done snap mid /\
     price_in snap "BTC" = Some 42817.5%float /\
     price_in snap "ETH" = Some 2280%float) /\
  (* the counters, for their part, are guarded *)
  (exists s', generateTrade s = Block s' /\ totalTrades s' = totalTrades s).
Proof.
  intros s tick mid.
  split; [by vm_compute|]. split; [by vm_compute|].
  split; [by vm_compute|]. split; [by vm_compute|].
  split; [by vm_compute|]. split; [by vm_compute|].
  split.
  - eexists. split; [apply getCryptoList_takes_no_lock|]. split; by vm_compute.
  - eexists. split; by vm_compute.
Qed.

(** ** The total of a trade *)

(** Rounding to 2 and to 4 decimal places, as the source writes them. *)
Definition round2 (x : float) : float := (math.Round (x * 100) / 100)%float.
Definition round4 (x : float) : float := (math.Round (x * 10000) / 10000)%float.

(** An oracle whose every [rand.Float64] is 0.617283945. *)
Definition fine_oracle : Oracle :=
  mkOracle (fun _ => 0.617283945%float) (fun _ => 0.7%float) (fun k => k)
    (fun k => Z.of_nat k + 1700000000000000000) (fun _ => "12:00:00")
    sample_marshal.

(** One subscriber is connected, under [fine_oracle]. *)
Definition fine_client : State := final (act Connect (init_state fine_oracle)).

Lemma fine_client_reachable : reachable fine_client.
Proof.
  exists fine_oracle, [Connect].
  eapply steps_cons; [done | by vm_compute | apply steps_nil].
Qed.

(** C5, as it is stated, fails: the subscriber receives a BTC trade with
    price 43250, amount 1.2346 and total 53395.06, while the price times the
    amount field, rounded to 2 decimal places, is 53396.45. *)
Lemma total_is_not_price_times_amount_field :
  exists t,
    chans (final (generateTrade fine_client)) !! 0%nat =
      Some (mkChan [mkSSEMessage "trade" (TradeData t)] 10 false) /\
    Trade_Price t = 43250%float /\
    Trade_Amount t = 1.2345999999999999%float /\
    Trade_Total t = 53395.059999999998%float /\
    round2 (Trade_Price t * Trade_Amount t) = 53396.449999999997%float /\
    (Trade_Total t =? round2 (Trade_Price t * Trade_Amount t))%float = false.
Proof.
  eexists. split; [by vm_compute|]. repeat split; by vm_compute.
Qed.

(** C5, as the code has it.  In every state the program reaches,
    [generateTrade] returns, having picked a tracked symbol and built one
    trade [t]: its price is the symbol's current price, its amount field is
    the drawn amount rounded to 4 decimal places, and its total is the price
    times the drawn amount (not the amount field) rounded to 2 decimal
    places.  That total is added to [totalVolume], and the one event that
    carries [t] is offered to every sink of the registry. *)
Theorem trade_total_rounds_drawn_amount (s : State) :
  reachable s ->
  exists symbol crypto t s',
    symbol ∈ symbols /\ cryptos s !! symbol = Some crypto /\
    generateTrade s = Done tt s' /\
    Trade_Symbol t = symbol /\
    Trade_Price t = Price crypto /\
    Trade_Amount t = round4 (drawn_amount s symbol) /\
    Trade_Total t = round2 (Price crypto * drawn_amount s symbol) /\
    totalVolume s' = (totalVolume s + Trade_Total t)%float /\
    totalTrades s' = wrap64 (totalTrades s + 1) /\
    forall ch, is_Some (clients s !! ch) ->
      chans s' !! ch = offer (mkSSEMessage "trade" (TradeData t)) <$> chans s !! ch.
Proof.
  intros Hinv%reachable_inv. pose proof Hinv as [[Q1 Q2] L B F Mk U C].
  destruct (rand_Intn_spec (length symbols) s) as (i & Hi & E); [done|].
  injection E as E.
  destruct (lookup_lt_is_Some_2 symbols i Hi) as [symbol Hsym].
  assert (Hin : symbol ∈ symbols) by (by eapply list_elem_of_lookup_2).
  destruct (Mk symbol Hin) as [crypto Hc].
  rewrite <- E in Hsym.
  pose proof (generateTrade_spec s symbol crypto Q2 Hsym Hc) as Hrun.
  set (t := trade_of s symbol crypto) in *.
  set (s1 := trade_booked s symbol t) in *.
  destruct (broadcast_spec (mkSSEMessage "trade" (TradeData t)) s1) as (s' & Hb & O & Lk).
  { unfold s1. destruct s; simpl in *. by rewrite Q1. }
  { intros ch Hch. unfold s1 in *. destruct s; simpl in *. by apply L. }
  exists symbol, crypto, t, s'.
  split; [done|]. split; [done|]. split; [congruence|].
  split; [done|]. split; [done|]. split; [done|]. split; [done|].
  split; [rewrite O; unfold s1; by destruct s|].
  split; [rewrite O; unfold s1; by destruct s|].
  intros ch Hch. rewrite Lk.
  rewrite decide_True by (unfold s1; by destruct s).
  unfold s1. by destruct s.
Qed.

Lemma trade_total_rounds_drawn_amount_witness :
  exists symbol crypto t s',
    symbol ∈ symbols /\ cryptos fine_client !! symbol = Some crypto /\
    generateTrade fine_client = Done tt s' /\
    Trade_Symbol t = symbol /\
    Trade_Price t = Price crypto /\
    Trade_Amount t = round4 (drawn_amount fine_client symbol) /\
    Trade_Total t = round2 (Price crypto * drawn_amount fine_client symbol) /\
    totalVolume s' = (totalVolume fine_client + Trade_Total t)%float /\
    totalTrades s' = wrap64 (totalTrades fine_client + 1) /\
    forall ch, is_Some (clients fine_client !! ch) ->
      chans s' !! ch =
        offer (mkSSEMessage "trade" (TradeData t)) <$> chans fine_client !! ch.
Proof.
  exact (trade_total_rounds_drawn_amount fine_client fine_client_reachable).
Defined.

(** ** Binary64 facts

    What the proofs about prices need of IEEE 754, from the specification
    of the primitive operations ([Prim2SF] and the [SF] functions). *)

Module B64.

(** A number: a zero or a finite non-zero value. *)
Definition sf_number (x : spec_float) : Prop :=
  match x with
  | S754_zero _ | S754_finite _ _ _ => True
  | _ => False
  end.

Lemma SFcompare_antisym x y : SFcompare y x = CompOpp <$> SFcompare x y.
Proof.
  destruct x as [sx|sx| |sx mx ex], y as [sy|sy| |sy my ey]; simpl;
    try done; try (by destruct sx); try (by destruct sy); try (by destruct sx, sy).
  destruct sx, sy; simpl; try done; f_equal;
    rewrite (Z.compare_antisym ex ey); destruct (ex ?= ey); simpl; try done.
  - f_equal. exact (eq_sym (Pos.compare_cont_antisym mx my Eq)).
  - exact (eq_sym (Pos.compare_cont_antisym mx my Eq)).
Qed.

Lemma SFcompare_refl x : x <> S754_nan -> SFcompare x x = Some Eq.
Proof.
  destruct x as [s|s| |s m e]; simpl; try done; try (by destruct s).
  intros _. pose proof (Pos.compare_cont_refl m Eq) as Hm.
  destruct s; rewrite Z.compare_refl; simpl; by rewrite Hm.
Qed.

Lemma SFcompare_None x y :
  SFcompare x y = None -> x = S754_nan \/ y = S754_nan.
Proof.
  destruct x as [sx|sx| |sx mx ex], y as [sy|sy| |sy my ey]; simpl; auto; done.
Qed.

Lemma is_nan_spec x : is_nan x = true <-> Prim2SF x = S754_nan.
Proof.
  unfold is_nan. rewrite FloatAxioms.eqb_spec. unfold SFeqb. split.
  - intros H. destruct (Prim2SF x) as [s|s| |s m e] eqn:E; [..|done|].
    + by destruct s.
    + by destruct s.
    + rewrite SFcompare_refl in H; done.
  - intros ->. done.
Qed.

Lemma not_nan_spec x : is_nan x = false <-> Prim2SF x <> S754_nan.
Proof.
  rewrite <- is_nan_spec. destruct (is_nan x); split; done.
Qed.

(** Among numbers and infinities, [x < y] fails exactly when [y <= x]. *)
Lemma ltb_false_leb x y :
  is_nan x = false -> is_nan y = false -> (x <? y)%float = false ->
  (y <=? x)%float = true.
Proof.
  rewrite !not_nan_spec, FloatAxioms.ltb_spec, FloatAxioms.leb_spec. unfold SFltb, SFleb.
  intros Hx Hy. rewrite (SFcompare_antisym (Prim2SF x) (Prim2SF y)).
  destruct (SFcompare (Prim2SF x) (Prim2SF y)) as [[]|] eqn:E; simpl; try done.
  by destruct (SFcompare_None _ _ E).
Qed.



Lemma leb_not_nan_l x y : (x <=? y)%float = true -> is_nan x = false.
Proof.
  rewrite FloatAxioms.leb_spec, not_nan_spec. unfold SFleb. intros H E.
  by rewrite E in H.
Qed.




(** ** The rounding of the operations never makes a NaN of numbers *)

Lemma shr_1_nonneg mrs : 0 <= shr_m mrs -> 0 <= shr_m (shr_1 mrs).
Proof. destruct mrs as [[|[p|p|]|p] r s]; simpl; lia. Qed.

Lemma iter_pos_shr_1_nonneg p mrs :
  0 <= shr_m mrs -> 0 <= shr_m (SpecFloat.iter_pos shr_1 p mrs).
Proof.
  revert mrs. induction p as [p IH|p IH|]; intros mrs H; simpl.
  - apply IH, IH. by apply shr_1_nonneg.
  - by apply IH, IH.
  - by apply shr_1_nonneg.
Qed.

Lemma shr_fexp_nonneg m e l :
  0 <= m -> 0 <= shr_m (fst (shr_fexp prec emax m e l)).
Proof.
  intros H. unfold shr_fexp, shr.
  assert (0 <= shr_m (shr_record_of_loc m l)) as H0.
  { by destruct l as [|[]]. }
  destruct (_ - e); simpl; [done | by apply iter_pos_shr_1_nonneg | done].
Qed.

Lemma round_nearest_even_nonneg m l : 0 <= m -> 0 <= round_nearest_even m l.
Proof.
  intros H. destruct l as [|[]]; simpl; try lia. destruct (Z.even m); lia.
Qed.

Lemma binary_round_aux_not_nan s m e l :
  0 <= m -> binary_round_aux prec emax s m e l <> S754_nan.
Proof.
  intros H. unfold binary_round_aux.
  pose proof (shr_fexp_nonneg m e l H) as H1.
  destruct (shr_fexp prec emax m e l) as [mrs' e'] eqn:E1. simpl in H1.
  pose proof (shr_fexp_nonneg _ e' loc_Exact
                (round_nearest_even_nonneg _ (loc_of_shr_record mrs') H1)) as H2.
  destruct (shr_fexp prec emax (round_nearest_even _ _) e' loc_Exact) as [mrs'' e''].
  simpl in H2. destruct (shr_m mrs'') as [|p|p]; [done | | lia].
  by destruct (e'' <=? _).
Qed.

Lemma binary_normalize_not_nan m e s :
  binary_normalize prec emax m e s <> S754_nan.
Proof.
  destruct m as [|p|p]; simpl; [done | |];
    unfold binary_round; destruct (shl_align _ _ _) as [mz ez];
    by apply binary_round_aux_not_nan.
Qed.

Lemma SFadd_not_nan x y :
  sf_number x -> y <> S754_nan -> SF64add x y <> S754_nan.
Proof.
  unfold SF64add, SFadd.
  destruct x as [sx|sx| |sx mx ex], y as [sy|sy| |sy my ey]; simpl; try done.
  - intros _ _. by destruct sx, sy.
  - intros _ _. apply binary_normalize_not_nan.
Qed.

Lemma SFsub_not_nan x y :
  sf_number x -> sf_number y -> SF64sub x y <> S754_nan.
Proof.
  unfold SF64sub, SFsub.
  destruct x as [sx|sx| |sx mx ex], y as [sy|sy| |sy my ey]; simpl; try done.
  - intros _ _. by destruct sx, sy.
  - intros _ _. apply binary_normalize_not_nan.
Qed.

Lemma SFmul_not_nan_r x s m e :
  x <> S754_nan -> SF64mul x (S754_finite s m e) <> S754_nan.
Proof.
  unfold SF64mul, SFmul. destruct x as [sx|sx| |sx mx ex]; simpl; try done.
  intros _. by apply binary_round_aux_not_nan.
Qed.

Lemma SFmul_not_nan_l s m e y :
  y <> S754_nan -> SF64mul (S754_finite s m e) y <> S754_nan.
Proof.
  unfold SF64mul, SFmul. destruct y as [sy|sy| |sy my ey]; simpl; try done.
  intros _. by apply binary_round_aux_not_nan.
Qed.

Lemma SFdiv_not_nan x s m e :
  x <> S754_nan -> SF64div x (S754_finite s m e) <> S754_nan.
Proof.
  unfold SF64div, SFdiv. destruct x as [sx|sx| |sx mx ex]; simpl; try done.
  intros _. unfold SFdiv_core_binary.
  set (m' := match _ - _ - _ with Z0 => _ | Z.pos _ => _ | Z.neg _ => _ end).
  assert (0 <= m') as Hm'.
  { unfold m'. destruct (_ - _ - _); [lia | | lia]. apply Z.shiftl_nonneg. lia. }
  pose proof (Z_div_mod m' (Z.pos m) ltac:(lia)) as Hdiv.
  destruct (Z.div_eucl m' (Z.pos m)) as [q r]. apply binary_round_aux_not_nan. nia.
Qed.

(** ** Reading the class of a value off comparisons *)

Lemma unit_interval_number r :
  (0 <=? r)%float = true -> (r <? 1)%float = true -> sf_number (Prim2SF r).
Proof.
  rewrite FloatAxioms.leb_spec, FloatAxioms.ltb_spec. unfold SFleb, SFltb.
  change (Prim2SF 0) with (S754_zero false).
  change (Prim2SF 1) with (S754_finite false 4503599627370496 (-52)).
  destruct (Prim2SF r) as [s|s| |s m e]; [done | | done | done].
  destruct s; [done|]. intros _. done.
Qed.


Lemma is_finite_number x : is_finite x = true -> sf_number (Prim2SF x).
Proof.
  unfold is_finite, is_infinity. intros H.
  apply negb_true_iff, orb_false_iff in H as [Hn Hi].
  apply not_nan_spec in Hn. rewrite FloatAxioms.eqb_spec, FloatAxioms.abs_spec in Hi.
  change (Prim2SF infinity) with (S754_infinity false) in Hi.
  destruct (Prim2SF x) as [s|s| |s m e]; simpl in *; done.
Qed.

End B64.

(** ** The figures of one price tick *)

Section Tick.
Import B64.
Local Open Scope float_scope.

Lemma eqb_infinity_above z x :
  is_finite x = true -> (z =? infinity) = true -> (x <? z) = true.
Proof.
  intros Hx%is_finite_number. rewrite FloatAxioms.eqb_spec, FloatAxioms.ltb_spec.
  change (Prim2SF infinity) with (S754_infinity false). unfold SFeqb, SFltb.
  destruct (Prim2SF z) as [s|s| |s m e]; simpl; try done.
  destruct s; [done|]. intros _. by destruct (Prim2SF x).
Qed.

(** [math.Max(-20, math.Min(20, z))] lies in [[-20, 20]] unless [z] is NaN. *)
Lemma clamp_range z :
  is_nan z = false ->
  (-20 <=? math.Max (-20) (math.Min 20 z)) = true /\
  (math.Max (-20) (math.Min 20 z) <=? 20) = true.
Proof.
  intros Hz. unfold math.Max, math.Min, math.IsInf, math.IsNaN. cbn.
  destruct (z =? neg_infinity) eqn:Hninf; [by cbn|].
  assert ((z =? z) = true) as Hzz.
  { unfold is_nan in Hz. by destruct (z =? z). }
  rewrite Hzz. cbn.
  destruct (20 <? z) eqn:Hhi; [by cbn|].
  destruct (z =? infinity) eqn:Hinf.
  { rewrite (eqb_infinity_above z 20) in Hhi; done. }
  cbn. rewrite Hzz. cbn.
  destruct (z <? -20) eqn:Hlo; [by cbn|].
  split; apply ltb_false_leb; done.
Qed.

Lemma half : Prim2SF 0.5 = S754_finite false 4503599627370496 (-53).
Proof. reflexivity. Qed.



(** The drifted 24h-change is a number or an infinity. *)
Lemma drift_not_nan c r :
  is_finite c = true -> (0 <=? r) = true -> (r <? 1) = true ->
  is_nan (c + (r - 0.5) * 0.5) = false.
Proof.
  intros Hc%is_finite_number H0 H1. pose proof (unit_interval_number r H0 H1) as Hr.
  apply not_nan_spec. rewrite FloatAxioms.add_spec. apply SFadd_not_nan; [done|].
  rewrite FloatAxioms.mul_spec, half. apply SFmul_not_nan_r.
  rewrite FloatAxioms.sub_spec. apply SFsub_not_nan; [done|]. by rewrite half.
Qed.

End Tick.

(** ** The claims on the price tick *)

(** [rand.Float64] returns a value of [[0, 1)]. *)
Definition unit_draws (o : Oracle) : Prop :=
  forall k, (0 <=? Float64 o k)%float = true /\ (Float64 o k <? 1)%float = true.

Lemma tick_crypto_change r1 r2 r3 c :
  is_finite (Change24h c) = true ->
  (0 <=? r2)%float = true -> (r2 <? 1)%float = true ->
  (-20 <=? Change24h (tick_crypto r1 r2 r3 c))%float = true /\
  (Change24h (tick_crypto r1 r2 r3 c) <=? 20)%float = true.
Proof.
  intros Hc H0 H1. simpl. apply clamp_range. by apply drift_not_nan.
Qed.


(** C4. A price tick returns, and every tracked symbol whose 24h-change was
    a finite number before the tick, whatever number, has a 24h-change
    within [[-20, 20]] after it. *)
Theorem change_within_20_after_tick (s : State) :
  hub_inv s ->
  unit_draws (oracle s) ->
  exists s',
    updatePrices s = Done tt s' /\
    forall x c, x ∈ symbols -> cryptos s !! x = Some c ->
      is_finite (Change24h c) = true ->
      exists c', cryptos s' !! x = Some c' /\
        (-20 <=? Change24h c')%float = true /\ (Change24h c' <=? 20)%float = true.
Proof.
  intros Hinv Hdraws.
  destruct (updatePrices_spec s (inv_market s Hinv)) as (s1 & msg & E & O & _ & I & U).
  destruct (producer_inv updatePrices msg s s1 Hinv) as (s' & E' & _ & O'); [|done|].
  { apply only_market_hub_eq; [done|]. by apply tick_keeps_tracked. }
  exists s'. split; [done|]. intros x c Hx Hc Hfin.
  apply list_elem_of_lookup in Hx as [i Hi].
  exists (tick_at s i c). split.
  - rewrite O'. replace (cryptos (set_chans _ s1)) with (cryptos s1) by (by destruct s1).
    by apply I.
  - apply tick_crypto_change; [done | apply Hdraws..].
Qed.

Lemma sample_unit_draws : unit_draws sample_oracle.
Proof. intros k. simpl. by destruct (Nat.even k). Qed.

Lemma change_within_20_after_tick_witness :
  exists s' c',
    updatePrices one_client = Done tt s' /\ cryptos s' !! "ADA" = Some c' /\
    (-20 <=? Change24h c')%float = true /\ (Change24h c' <=? 20)%float = true.
Proof.
  destruct (change_within_20_after_tick one_client
              (reachable_inv _ one_client_reachable) sample_unit_draws)
    as (s' & E & H).
  destruct (H "ADA" (mkCrypto "ADA" "Cardano" 0.52 (-0.8) 450000000 0.55 0.50)%float)
    as (c' & Hc' & Hrange); [repeat constructor | reflexivity | reflexivity |].
  exists s', c'. split; [exact E|]. split; [exact Hc' | exact Hrange].
Defined.

(** ** What each action does *)

Lemma append_assoc (a b c : string) : (a +:+ b) +:+ c = a +:+ (b +:+ c).
Proof.
  induction a as [|x a IH]; [reflexivity|].
  change (String x ((a +:+ b) +:+ c) = String x (a +:+ (b +:+ c))). by f_equal.
Qed.

(** What [sendSSE] writes for a message whose JSON text is [data]. *)
Definition frame (data : string) : string :=
  ("event: message" +:+ nl) +:+ ("data: " +:+ data +:+ nl +:+ nl).

(** The state [sendSSE w msg] leaves. *)
Definition written (w : nat) (msg : SSEMessage) (s : State) : State :=
  match Marshal (oracle s) msg with
  | None => s
  | Some data => set_resp (fun r => <[w := default "" (r !! w) +:+ frame data]> r) s
  end.

Lemma sendSSE_written w msg s : sendSSE w msg s = Done tt (written w msg s).
Proof.
  rewrite sendSSE_spec. unfold written. destruct (Marshal (oracle s) msg); [|done].
  destruct s; unfold set_resp, frame; simpl. by rewrite append_assoc.
Qed.

Lemma hub_eq_written w msg s : hub_eq s (written w msg s).
Proof.
  unfold written. destruct (Marshal (oracle s) msg);
    [apply hub_eq_set_resp | apply hub_eq_refl].
Qed.

(** The event a new connection is greeted with. *)
Definition init_message (s : State) : SSEMessage :=
  mkSSEMessage "init"
    (InitData ((map_to_list (cryptos s)).*2) "Connected to CryptoStream Live").

Lemma handleSSE_open_exact s :
  quiescent s ->
  handleSSE_open s =
    Done (nextChan s) (written (nextChan s) (init_message s) (opened s)).
Proof.
  intros [Hc Hs]. unfold handleSSE_open.
  erewrite bind_Done by reflexivity.
  erewrite bind_Done; last first.
  { apply addClient_spec. split; destruct s; simpl in *; done. }
  erewrite bind_Done; last first.
  { unfold getCryptoList, mbind, M_bind, get. reflexivity. }
  erewrite bind_Done; last first.
  { apply sendSSE_written. }
  unfold init_message, opened. by destruct s.
Qed.

(** The state an action leaves, action by action. *)
Definition act_shape (a : Action) (s s' : State) : Prop :=
  match a with
  | Connect => s' = written (nextChan s) (init_message s) (opened s)
  | Message ch =>
      exists c m rest,
        chans s !! ch = Some c /\ closed c = false /\ buf c = m :: rest /\
        s' = written ch m (set_chans <[ch := mkChan rest (cap c) false]> s)
  | Disconnect ch =>
      exists c, chans s !! ch = Some c /\ closed c = false /\ s' = removed ch c s
  | Send msg ch =>
      exists c, chans s !! ch = Some c /\ closed c = false /\
        s' = set_chans <[ch := offer msg c]> s
  | PriceTick =>
      exists s1 msg,
        only_market s s1 /\ cursor s1 = (cursor s + 18)%nat /\
        (forall i x c, symbols !! i = Some x -> cryptos s !! x = Some c ->
           cryptos s1 !! x = Some (tick_at s i c)) /\
        (forall x, x ∉ symbols -> cryptos s1 !! x = cryptos s !! x) /\
        broadcast msg s1 = Done tt s' /\ only_chans s1 s'
  | TradeTick =>
      exists symbol crypto,
        symbol ∈ symbols /\ cryptos s !! symbol = Some crypto /\
        let t := trade_of s symbol crypto in
        broadcast (mkSSEMessage "trade" (TradeData t)) (trade_booked s symbol t)
          = Done tt s' /\
        only_chans (trade_booked s symbol t) s'
  | AlertTick =>
      exists msg,
        broadcast msg (set_cursor (fun k => S (S (S k))) s) = Done tt s' /\
        only_chans (set_cursor (fun k => S (S (S k))) s) s'
  | StatsTick =>
      exists msg,
        broadcast msg (set_cursor S s) = Done tt s' /\ only_chans (set_cursor S s) s'
  end.

Lemma broadcast_Done_only_chans msg s s' :
  hub_inv s -> broadcast msg s = Done tt s' -> only_chans s s'.
Proof.
  intros Hinv E. destruct (broadcast_inv msg s Hinv) as (s'' & E' & _ & O).
  rewrite E in E'. by injection E' as <-.
Qed.

Lemma act_Done_shape a s s' :
  hub_inv s -> enabled a s -> act a s = Done tt s' -> act_shape a s s'.
Proof.
  intros Hinv Hen Hact. pose proof Hinv as [[Q1 Q2] L B F Mk U C].
  destruct a; simpl in Hen |- *.
  - simpl in Hact.
    erewrite bind_Done in Hact by exact (handleSSE_open_exact s (conj Q1 Q2)).
    by injection Hact as <-.
  - destruct (L ch Hen) as (c & Hc & Hopen).
    simpl in Hact. unfold handleSSE_message in Hact.
    apply bind_inv_Done in Hact as (msg & s1 & Hrecv & Hsend).
    rewrite (recv_cases ch s c Hc Hopen) in Hrecv.
    destruct (buf c) as [|m rest] eqn:Hbuf; [done|]. injection Hrecv as <- <-.
    rewrite sendSSE_written in Hsend. injection Hsend as <-. exists c, m, rest. done.
  - destruct (L ch Hen) as (c & Hc & Hopen).
    simpl in Hact. unfold handleSSE_done in Hact.
    rewrite (removeClient_open ch s c (conj Q1 Q2) Hc Hopen) in Hact.
    injection Hact as <-. eauto.
  - simpl in Hact.
    destruct (updatePrices_spec s Mk) as (s1 & msg & E & O & K & I & V).
    exists s1, msg. rewrite E in Hact. repeat split; try done.
    apply (broadcast_Done_only_chans msg); [|done].
    apply (hub_inv_eq s); [|done].
    apply only_market_hub_eq; [done|]. by apply tick_keeps_tracked.
  - simpl in Hact.
    destruct (rand_Intn_spec (length symbols) s) as (i & Hi & E); [done|].
    injection E as E.
    destruct (lookup_lt_is_Some_2 symbols i Hi) as [symbol Hsym].
    assert (Hin : symbol ∈ symbols) by (by eapply list_elem_of_lookup_2).
    destruct (Mk symbol Hin) as [crypto Hc].
    rewrite <- E in Hsym.
    rewrite (generateTrade_spec s symbol crypto Q2 Hsym Hc) in Hact.
    exists symbol, crypto. split; [done|]. split; [done|]. split; [done|].
    refine (broadcast_Done_only_chans _ _ _ _ Hact).
    apply (hub_inv_eq s); [|done]. destruct s; repeat split; done.
  - simpl in Hact. destruct (generateAlert_spec s) as (msg & E).
    rewrite E in Hact. exists msg. split; [done|].
    apply (broadcast_Done_only_chans msg); [|done].
    by apply (hub_inv_eq s); [apply hub_eq_set_cursor|].
  - simpl in Hact. destruct (broadcastStats_spec s Q2) as (msg & E).
    rewrite E in Hact. exists msg. split; [done|].
    apply (broadcast_Done_only_chans msg); [|done].
    by apply (hub_inv_eq s); [apply hub_eq_set_cursor|].
  - destruct (L ch Hen) as (c & Hc & Hopen).
    simpl in Hact. rewrite (try_send_open msg ch s c Hc Hopen) in Hact.
    injection Hact as <-. eauto.
Qed.

Lemma only_chans_fields s s' :
  only_chans s s' ->
  cryptos s' = cryptos s /\ clients s' = clients s /\ oracle s' = oracle s /\
  cursor s' = cursor s /\ totalTrades s' = totalTrades s /\
  totalVolume s' = totalVolume s /\ activeTraders s' = activeTraders s /\
  resp s' = resp s /\ nextChan s' = nextChan s /\
  clientsMu s' = clientsMu s /\ statsMu s' = statsMu s.
Proof. intros ->. by destruct s. Qed.

(** Only the price tick changes the market, and it changes every tracked
    symbol by [tick_crypto]; no action changes the oracle. *)
Lemma act_market a s s' :
  hub_inv s -> enabled a s -> act a s = Done tt s' ->
  oracle s' = oracle s /\
  ((a = PriceTick /\
    (forall i x c, symbols !! i = Some x -> cryptos s !! x = Some c ->
       cryptos s' !! x = Some (tick_at s i c)) /\
    (forall x, x ∉ symbols -> cryptos s' !! x = cryptos s !! x)) \/
   (a <> PriceTick /\ cryptos s' = cryptos s)).
Proof.
  intros Hinv Hen Hact. pose proof (act_Done_shape a s s' Hinv Hen Hact) as Hs.
  destruct a; simpl in Hs.
  - rewrite Hs. unfold written. destruct (Marshal _ _);
      (split; [by destruct s|]; right; split; [done | by destruct s]).
  - destruct Hs as (c & m & rest & _ & _ & _ & ->).
    unfold written. destruct (Marshal _ _);
      (split; [by destruct s|]; right; split; [done | by destruct s]).
  - destruct Hs as (c & _ & _ & ->).
    split; [by destruct s|]. right. split; [done | by destruct s].
  - destruct Hs as (s1 & msg & Om & K & I & V & _ & (Hc & _ & Ho & _)%only_chans_fields).
    split; [rewrite Ho, Om; by destruct s|]. left. split; [done|].
    split; intros; rewrite Hc; eauto.
  - destruct Hs as (symbol & crypto & _ & _ & _ & (Hc & _ & Ho & _)%only_chans_fields).
    split; [rewrite Ho; by destruct s|]. right. split; [done|]. rewrite Hc. by destruct s.
  - destruct Hs as (msg & _ & (Hc & _ & Ho & _)%only_chans_fields).
    split; [rewrite Ho; by destruct s|]. right. split; [done|]. rewrite Hc. by destruct s.
  - destruct Hs as (msg & _ & (Hc & _ & Ho & _)%only_chans_fields).
    split; [rewrite Ho; by destruct s|]. right. split; [done|]. rewrite Hc. by destruct s.
  - destruct Hs as (c & _ & _ & ->).
    split; [by destruct s|]. right. split; [done | by destruct s].
Qed.


(** The market holds the six tracked symbols and nothing else, each under
    its own name. *)
Definition market_labelled (s : State) : Prop :=
  (forall k, is_Some (cryptos s !! k) -> k ∈ symbols) /\
  (forall k c, cryptos s !! k = Some c -> Symbol c = k).

Lemma seed_lookup k c :
  seed_cryptos !! k = Some c ->
  (k, c) ∈ [
    ("BTC", mkCrypto "BTC" "Bitcoin" 43250.00 2.5 28500000000 44100 42800);
    ("ETH", mkCrypto "ETH" "Ethereum" 2280.00 (-1.2) 15200000000 2350 2250);
    ("SOL", mkCrypto "SOL" "Solana" 98.50 5.8 2100000000 102 94);
    ("ADA", mkCrypto "ADA" "Cardano" 0.52 (-0.8) 450000000 0.55 0.50);
    ("DOT", mkCrypto "DOT" "Polkadot" 7.25 1.3 320000000 7.50 7.10);
    ("AVAX", mkCrypto "AVAX" "Avalanche" 35.80 3.2 580000000 37.00 34.50)
  ]%float.
Proof. unfold seed_cryptos. apply elem_of_list_to_map_2. Qed.

Lemma init_market_labelled o : market_labelled (init_state o).
Proof.
  split.
  - intros k [c Hc]. apply seed_lookup in Hc.
    repeat (apply elem_of_cons in Hc as [[= -> _]|Hc]; [repeat constructor|]).
    by apply elem_of_nil in Hc.
  - intros k c Hc. apply seed_lookup in Hc.
    repeat (apply elem_of_cons in Hc as [[= -> ->]|Hc]; [done|]).
    by apply elem_of_nil in Hc.
Qed.

Lemma act_market_labelled a s s' :
  hub_inv s -> enabled a s -> act a s = Done tt s' ->
  market_labelled s -> market_labelled s'.
Proof.
  intros Hinv Hen Hact [Hk Hl].
  destruct (act_market a s s' Hinv Hen Hact) as [_ [(_ & I & V)|(_ & E)]];
    [|unfold market_labelled; by rewrite E].
  assert (Hcase : forall k c', cryptos s' !! k = Some c' ->
            exists i c, symbols !! i = Some k /\ cryptos s !! k = Some c /\
                        c' = tick_at s i c).
  { intros k c' Hc'. destruct (decide (k ∈ symbols)) as [Hin|Hin].
    - apply list_elem_of_lookup in Hin as [i Hi].
      destruct (inv_market s Hinv k) as [c Hc]; [by eapply list_elem_of_lookup_2|].
      exists i, c. rewrite (I i k c Hi Hc) in Hc'. by injection Hc' as <-.
    - rewrite V in Hc' by done. destruct Hin. apply Hk. eauto. }
  split.
  - intros k [c' Hc']. destruct (Hcase k c' Hc') as (i & c & Hi & _).
    by eapply list_elem_of_lookup_2.
  - intros k c' Hc'. destruct (Hcase k c' Hc') as (i & c & Hi & Hc & ->).
    simpl. by apply Hl.
Qed.

Lemma reachable_market_labelled s : reachable s -> market_labelled s.
Proof.
  intros (o & acts & Hst).
  assert (Hgen : forall s0, hub_inv s0 -> market_labelled s0 -> steps s0 acts s ->
            market_labelled s).
  { clear Hst. intros s0 Hinv Hm Hst.
    induction Hst as [|s0 s1 s2 a acts Hen Hact _ IH]; [done|].
    apply IH; [by apply (act_inv a s0) | by apply (act_market_labelled a s0)]. }
  by apply (Hgen (init_state o)); [apply init_inv | apply init_market_labelled |].
Qed.

(** ** Further properties of the hub *)

Lemma offer_take msg c msgs :
  cap c = 10%nat -> (length (buf c) <= 10)%nat ->
  take 10 (buf (offer msg c) ++ msgs) = take 10 (buf c ++ msg :: msgs).
Proof.
  intros Hcap Hlen. unfold offer. rewrite Hcap.
  destruct (length (buf c) <? 10)%nat eqn:E; simpl.
  - by rewrite <- app_assoc.
  - apply Nat.ltb_ge in E. rewrite !take_app_le by lia. done.
Qed.

(** A run of publishes leaves every registered sink with the oldest 10 of
    the items it held followed by the published events, in the order of
    publication: delivery is first-in first-out and what does not fit is the
    newest. *)
Theorem publishes_queue_in_order (s : State) (msgs : list SSEMessage) :
  reachable s ->
  exists s',
    for_each msgs broadcast s = Done tt s' /\
    clients s' = clients s /\
    forall ch c, is_Some (clients s !! ch) -> chans s !! ch = Some c ->
      chans s' !! ch = Some (mkChan (take 10 (buf c ++ msgs)) 10 false).
Proof.
  intros Hinv%reachable_inv. revert s Hinv.
  induction msgs as [|msg msgs IH]; intros s Hinv.
  - exists s. split; [done|]. split; [done|]. intros ch c Hin Hc.
    destruct (inv_live s Hinv ch Hin) as (c' & Hc' & Hopen).
    assert (c' = c) as -> by congruence.
    destruct (inv_bounded s Hinv ch c Hc) as [Hcap Hlen].
    rewrite Hc, app_nil_r, take_ge by done. f_equal.
    destruct c; simpl in *. by subst.
  - destruct (broadcast_spec msg s) as (s1 & E & O & Lk);
      [by rewrite (proj1 (inv_quiescent s Hinv)) | apply (inv_live s Hinv) |].
    destruct (broadcast_inv msg s Hinv) as (s1' & E' & Hinv1 & _).
    assert (s1' = s1) as -> by congruence.
    destruct (IH s1 Hinv1) as (s' & Hrun & Hcl & Hq).
    destruct (only_chans_fields s s1 O) as (_ & Hcl1 & _).
    exists s'. split; [|split].
    + simpl. erewrite bind_Done by exact E. exact Hrun.
    + congruence.
    + intros ch c Hin Hc.
      destruct (inv_bounded s Hinv ch c Hc) as [Hcap Hlen].
      rewrite (Hq ch (offer msg c)).
      * by rewrite offer_take.
      * by rewrite Hcl1.
      * by rewrite Lk, decide_True, Hc.
Qed.

Lemma publishes_queue_in_order_witness :
  exists s',
    for_each (replicate 11 sample_alert ++ [nan_stats]) broadcast one_client
      = Done tt s' /\
    chans s' !! 0%nat = Some (mkChan (replicate 10 sample_alert) 10 false).
Proof.
  destruct (publishes_queue_in_order one_client
              (replicate 11 sample_alert ++ [nan_stats]) one_client_reachable)
    as (s' & E & _ & H).
  exists s'. split; [exact E|].
  apply (H 0%nat (mkChan [] 10 false)); [by eexists | reflexivity].
Defined.

(** An event published to a registered sink whose queue is empty is what
    the next turn of that connection's loop writes to its stream, framed;
    the queue is empty again and no other stream has changed. *)
Theorem publish_then_deliver (s : State) (ch : nat) (c : Chan) (msg : SSEMessage)
    (data : string) :
  reachable s ->
  is_Some (clients s !! ch) ->
  chans s !! ch = Some c -> buf c = [] ->
  Marshal (oracle s) msg = Some data ->
  exists s1 s2,
    broadcast msg s = Done tt s1 /\
    handleSSE_message ch s1 = Done tt s2 /\
    resp s2 !! ch = Some (default "" (resp s !! ch) +:+ frame data) /\
    (forall w, w <> ch -> resp s2 !! w = resp s !! w) /\
    chans s2 !! ch = Some (mkChan [] 10 false).
Proof.
  intros Hinv%reachable_inv Hin Hc Hbuf Hdata.
  destruct (broadcast_spec msg s) as (s1 & E & O & Lk);
    [by rewrite (proj1 (inv_quiescent s Hinv)) | apply (inv_live s Hinv) |].
  destruct (inv_bounded s Hinv ch c Hc) as [Hcap _].
  destruct (inv_live s Hinv ch Hin) as (c' & Hc' & Hopen).
  assert (c' = c) as -> by congruence.
  assert (Hc1 : chans s1 !! ch = Some (mkChan [msg] 10 false)).
  { rewrite Lk, decide_True, Hc by done. simpl. unfold offer.
    rewrite Hbuf, Hcap. done. }
  destruct (only_chans_fields s s1 O) as (_ & _ & Ho & _ & _ & _ & _ & Hr & _).
  exists s1. eexists. split; [done|]. split.
  - unfold handleSSE_message. erewrite bind_Done; last first.
    { unfold recv. rewrite Hc1. reflexivity. }
    rewrite sendSSE_spec.
    replace (oracle (set_chans _ s1)) with (oracle s) by (rewrite <- Ho; by destruct s1).
    rewrite Hdata. reflexivity.
  - rewrite <- Hr. destruct s1; simpl. split; [|split].
    + rewrite lookup_insert_eq. f_equal. apply append_assoc.
    + intros w Hw. by rewrite lookup_insert_ne.
    + by rewrite lookup_insert_eq.
Qed.

Lemma publish_then_deliver_witness :
  exists s1 s2,
    broadcast sample_alert one_client = Done tt s1 /\
    handleSSE_message 0 s1 = Done tt s2 /\
    resp s2 !! 0%nat = Some (frame "{init}" +:+ frame "{alert}").
Proof.
  destruct (publish_then_deliver one_client 0 (mkChan [] 10 false) sample_alert "{alert}"
              one_client_reachable) as (s1 & s2 & E1 & E2 & Hr & _);
    [by eexists | reflexivity | reflexivity | reflexivity |].
  exists s1, s2. split; [exact E1|]. split; [exact E2|]. rewrite Hr. reflexivity.
Defined.

(** No connection has written to a stream before [make] returned its
    channel. *)
Definition resp_fresh (s : State) : Prop :=
  forall w, (nextChan s <= w)%nat -> resp s !! w = None.

Lemma written_fields w msg s :
  let s' := written w msg s in
  nextChan s' = nextChan s /\ chans s' = chans s /\ clients s' = clients s /\
  cryptos s' = cryptos s /\ cursor s' = cursor s /\ oracle s' = oracle s /\
  activeTraders s' = activeTraders s /\ totalTrades s' = totalTrades s /\
  totalVolume s' = totalVolume s /\
  (forall w', w' <> w -> resp s' !! w' = resp s !! w').
Proof.
  unfold written. destruct (Marshal (oracle s) msg); [|done].
  destruct s; simpl. repeat split; try done. intros w' Hw. by rewrite lookup_insert_ne.
Qed.

Lemma act_resp_fresh a s s' :
  hub_inv s -> enabled a s -> act a s = Done tt s' -> resp_fresh s -> resp_fresh s'.
Proof.
  intros Hinv Hen Hact Hf. pose proof (act_Done_shape a s s' Hinv Hen Hact) as Hs.
  assert (Hlt : forall ch, is_Some (clients s !! ch) -> (ch < nextChan s)%nat).
  { intros ch Hin. destruct (inv_live s Hinv ch Hin) as (c & Hc & _).
    destruct (decide (ch < nextChan s)%nat); [done|].
    rewrite (inv_fresh s Hinv ch) in Hc by lia. done. }
  intros w Hw. destruct a; simpl in Hs, Hen.
  - subst s'. destruct (written_fields (nextChan s) (init_message s) (opened s))
      as (Hn & _ & _ & _ & _ & _ & _ & _ & _ & Hr).
    rewrite Hn in Hw. rewrite Hr.
    + destruct s; simpl in *. apply Hf. simpl. lia.
    + destruct s; simpl in *. lia.
  - destruct Hs as (c & m & rest & _ & _ & _ & ->). specialize (Hlt ch Hen).
    destruct (written_fields ch m (set_chans <[ch := mkChan rest (cap c) false]> s))
      as (Hn & _ & _ & _ & _ & _ & _ & _ & _ & Hr).
    rewrite Hn in Hw. rewrite Hr.
    + destruct s; simpl in *. by apply Hf.
    + destruct s; simpl in *. lia.
  - destruct Hs as (c & _ & _ & ->). destruct s; simpl in *. by apply Hf.
  - destruct Hs as (s1 & msg & Om & _ & _ & _ & _ & O).
    destruct (only_chans_fields s1 s' O) as (_ & _ & _ & _ & _ & _ & _ & Hr & Hn & _).
    rewrite Hr. rewrite Hn in Hw. rewrite Om in Hw |- *. destruct s; simpl in *. by apply Hf.
  - destruct Hs as (symbol & crypto & _ & _ & _ & O).
    destruct (only_chans_fields _ s' O) as (_ & _ & _ & _ & _ & _ & _ & Hr & Hn & _).
    rewrite Hr. rewrite Hn in Hw. destruct s; simpl in *. by apply Hf.
  - destruct Hs as (msg & _ & O).
    destruct (only_chans_fields _ s' O) as (_ & _ & _ & _ & _ & _ & _ & Hr & Hn & _).
    rewrite Hr. rewrite Hn in Hw. destruct s; simpl in *. by apply Hf.
  - destruct Hs as (msg & _ & O).
    destruct (only_chans_fields _ s' O) as (_ & _ & _ & _ & _ & _ & _ & Hr & Hn & _).
    rewrite Hr. rewrite Hn in Hw. destruct s; simpl in *. by apply Hf.
  - destruct Hs as (c & _ & _ & ->). destruct s; simpl in *. by apply Hf.
Qed.

Lemma reachable_resp_fresh s : reachable s -> resp_fresh s.
Proof.
  intros (o & acts & Hst).
  assert (Hgen : forall s0, hub_inv s0 -> resp_fresh s0 -> steps s0 acts s -> resp_fresh s).
  { clear Hst. intros s0 Hinv Hm Hst.
    induction Hst as [|s0 s1 s2 a acts Hen Hact _ IH]; [done|].
    apply IH; [by apply (act_inv a s0) | by apply (act_resp_fresh a s0)]. }
  apply (Hgen (init_state o)); [apply init_inv | | done].
  intros w _. apply lookup_empty.
Qed.

(** The snapshot [getCryptoList] returns has one entry for each of the six
    tracked symbols and no other, each the current state of the symbol it
    names. *)
Theorem snapshot_lists_tracked_symbols (s : State) :
  reachable s ->
  exists cs,
    getCryptoList s = Done cs s /\
    Symbol <$> cs ≡ₚ symbols /\
    forall c, c ∈ cs <-> cryptos s !! Symbol c = Some c.
Proof.
  intros Hr. pose proof (reachable_inv s Hr) as Hinv.
  destruct (reachable_market_labelled s Hr) as [Hk Hl].
  exists ((map_to_list (cryptos s)).*2). split; [done|].
  assert (Hin : forall c, c ∈ (map_to_list (cryptos s)).*2 <->
                          cryptos s !! Symbol c = Some c).
  { intros c. rewrite list_elem_of_fmap. split.
    - intros ([k c'] & -> & Hkc). apply elem_of_map_to_list in Hkc. simpl.
      by rewrite (Hl k c' Hkc).
    - intros Hc. exists (Symbol c, c). split; [done|]. by apply elem_of_map_to_list. }
  split; [|done].
  assert (Hfst : Symbol <$> (map_to_list (cryptos s)).*2 = (map_to_list (cryptos s)).*1).
  { rewrite <- list_fmap_compose. apply list_fmap_ext.
    intros i [k c] Hi. simpl. apply Hl. apply elem_of_map_to_list.
    by eapply list_elem_of_lookup_2. }
  rewrite Hfst. apply NoDup_Permutation.
  - apply NoDup_fst_map_to_list.
  - apply NoDup_symbols.
  - intros k. rewrite list_elem_of_fmap. split.
    + intros ([k' c] & -> & Hkc). apply elem_of_map_to_list in Hkc. apply Hk. eauto.
    + intros Hks. destruct (inv_market s Hinv k Hks) as [c Hc].
      exists (k, c). split; [done|]. by apply elem_of_map_to_list.
Qed.

(** What a snapshot of the market is, whatever its order: one entry for
    each tracked symbol, each the current record of the symbol it names. *)
Lemma market_snapshot s :
  hub_inv s -> market_labelled s ->
  Symbol <$> (map_to_list (cryptos s)).*2 ≡ₚ symbols /\
  forall c, c ∈ (map_to_list (cryptos s)).*2 <-> cryptos s !! Symbol c = Some c.
Proof.
  intros Hinv [Hk Hl]. split.
  - assert (Hfst : Symbol <$> (map_to_list (cryptos s)).*2 = (map_to_list (cryptos s)).*1).
    { rewrite <- list_fmap_compose. apply list_fmap_ext.
      intros i [k c] Hi. simpl. apply Hl. apply elem_of_map_to_list.
      by eapply list_elem_of_lookup_2. }
    rewrite Hfst. apply NoDup_Permutation.
    + apply NoDup_fst_map_to_list.
    + apply NoDup_symbols.
    + intros k. rewrite list_elem_of_fmap. split.
      * intros ([k' c] & -> & Hkc). apply elem_of_map_to_list in Hkc. apply Hk. eauto.
      * intros Hks. destruct (inv_market s Hinv k Hks) as [c Hc].
        exists (k, c). split; [done|]. by apply elem_of_map_to_list.
  - intros c. rewrite list_elem_of_fmap. split.
    + intros ([k c'] & -> & Hkc). apply elem_of_map_to_list in Hkc. simpl.
      by rewrite (Hl k c' Hkc).
    + intros Hc. exists (Symbol c, c). split; [done|]. by apply elem_of_map_to_list.
Qed.

Lemma handleSSE_open_greeting (s : State) :
  reachable s ->
  let ch := nextChan s in
  exists s',
    handleSSE_open s = Done ch s' /\
    clients s !! ch = None /\ chans s !! ch = None /\
    clients s' = <[ch := true]> (clients s) /\
    chans s' = <[ch := mkChan [] 10 false]> (chans s) /\
    activeTraders s' = wrap64 (activeTraders s + 1) /\
    cryptos s' = cryptos s /\ cursor s' = cursor s /\
    (forall w, w <> ch -> resp s' !! w = resp s !! w) /\
    resp s' !! ch = frame <$> Marshal (oracle s) (init_message s).
Proof.
  intros Hr ch. pose proof (reachable_inv s Hr) as Hinv.
  pose proof (reachable_resp_fresh s Hr) as Hf.
  assert (Hnone : chans s !! ch = None) by (apply (inv_fresh s Hinv); unfold ch; lia).
  assert (Hreg : clients s !! ch = None).
  { destruct (clients s !! ch) eqn:E; [|done].
    destruct (inv_live s Hinv ch) as (c & Hc & _); [by rewrite E | congruence]. }
  exists (written ch (init_message s) (opened s)).
  split; [apply handleSSE_open_exact, (inv_quiescent s Hinv)|].
  split; [done|]. split; [done|].
  assert (Hfresh : resp s !! ch = None) by (apply Hf; unfold ch; lia).
  unfold written.
  replace (oracle (opened s)) with (oracle s) by (by destruct s).
  destruct (Marshal (oracle s) (init_message s)) as [data|]; simpl.
  - destruct s; simpl in *. repeat split; try done.
    + intros w Hw. by rewrite lookup_insert_ne.
    + unfold ch in *. simpl in *. rewrite lookup_insert_eq, Hfresh. done.
  - destruct s; simpl in *. repeat split; done.
Qed.

(** A new connection gets a channel that no one holds yet, with room for
    10 events and none queued; it is added to the registry and counted; the
    market and the oracle are not touched; and unless [json.Marshal] fails
    the stream of the connection holds exactly the framed init event, which
    carries a snapshot of the market at that moment: in some order, one
    record for each tracked symbol, as the market has it.  No other stream
    or channel changes. *)
Theorem connect_greets_with_snapshot (s : State) :
  reachable s ->
  let ch := nextChan s in
  exists s' cs,
    handleSSE_open s = Done ch s' /\
    clients s !! ch = None /\ chans s !! ch = None /\
    clients s' = <[ch := true]> (clients s) /\
    chans s' = <[ch := mkChan [] 10 false]> (chans s) /\
    activeTraders s' = wrap64 (activeTraders s + 1) /\
    cryptos s' = cryptos s /\ cursor s' = cursor s /\
    (forall w, w <> ch -> resp s' !! w = resp s !! w) /\
    Symbol <$> cs ≡ₚ symbols /\
    (forall c, c ∈ cs <-> cryptos s !! Symbol c = Some c) /\
    resp s' !! ch =
      frame <$> Marshal (oracle s)
                  (mkSSEMessage "init" (InitData cs "Connected to CryptoStream Live")).
Proof.
  intros Hr ch.
  destruct (handleSSE_open_greeting s Hr)
    as (s' & E & H1 & H2 & H3 & H4 & H5 & H6 & H7 & H8 & H9).
  destruct (market_snapshot s (reachable_inv s Hr) (reachable_market_labelled s Hr))
    as [Hp Hin].
  exists s', ((map_to_list (cryptos s)).*2). repeat split; try done; apply Hin.
Qed.

Lemma snapshot_lists_tracked_symbols_witness :
  exists cs, getCryptoList one_client = Done cs one_client /\ Symbol <$> cs ≡ₚ symbols.
Proof.
  destruct (snapshot_lists_tracked_symbols one_client one_client_reachable)
    as (cs & E & Hp & _).
  exists cs. split; [exact E | exact Hp].
Defined.

Lemma connect_greets_with_snapshot_witness :
  exists s' cs,
    handleSSE_open one_client = Done 1%nat s' /\
    Symbol <$> cs ≡ₚ symbols /\
    resp s' !! 1%nat =
      frame <$> Marshal (oracle one_client)
                  (mkSSEMessage "init" (InitData cs "Connected to CryptoStream Live")) /\
    resp s' !! 0%nat = Some (frame "{init}").
Proof.
  destruct (connect_greets_with_snapshot one_client one_client_reachable)
    as (s' & cs & E & _ & _ & _ & _ & _ & _ & _ & Hother & Hp & _ & Hr).
  exists s', cs. split; [exact E|]. split; [exact Hp|]. split; [exact Hr|].
  etransitivity; [apply (Hother 0%nat); vm_compute; discriminate|]. by vm_compute.
Defined.

Lemma wrap64_range z : - 2 ^ 63 <= wrap64 z < 2 ^ 63.
Proof.
  unfold wrap64. pose proof (Z.mod_pos_bound (z + 2 ^ 63) (2 ^ 64) ltac:(lia)). lia.
Qed.

(** A connection that is opened and closed again leaves the registry and
    the subscriber counter as they were; of its channel only the closed,
    empty shell remains, and no other channel has changed. *)
Theorem connect_disconnect_restores (s : State) :
  reachable s ->
  exists ch s1 s2,
    handleSSE_open s = Done ch s1 /\
    handleSSE_done ch s1 = Done tt s2 /\
    clients s2 = clients s /\
    activeTraders s2 = activeTraders s /\
    chans s2 = <[ch := mkChan [] 10 true]> (chans s) /\
    chans s !! ch = None.
Proof.
  intros Hr. pose proof (reachable_inv s Hr) as Hinv.
  destruct (handleSSE_open_greeting s Hr)
    as (s1 & E1 & Hreg & Hnone & Hcl & Hch & Hact & _).
  pose proof (handleSSE_open_exact s (inv_quiescent s Hinv)) as Hex.
  assert (s1 = written (nextChan s) (init_message s) (opened s)) as Hs1 by congruence.
  assert (Hinv1 : hub_inv s1).
  { rewrite Hs1. eapply hub_inv_eq; [apply hub_eq_written | by apply opened_inv]. }
  exists (nextChan s), s1. eexists. split; [done|]. split.
  - unfold handleSSE_done. apply (removeClient_open _ _ (mkChan [] 10 false)).
    + apply (inv_quiescent s1 Hinv1).
    + rewrite Hch. apply lookup_insert_eq.
    + done.
  - destruct s1; simpl in *. subst. split; [|split; [|split]]; simpl.
    + by rewrite delete_insert_id.
    + rewrite wrap64_sub. replace (activeTraders s + 1 - 1) with (activeTraders s) by lia.
      rewrite (inv_counter s Hinv). apply wrap64_small, wrap64_range.
    + by rewrite insert_insert_eq.
    + done.
Qed.

Lemma connect_disconnect_restores_witness :
  exists ch s1 s2,
    handleSSE_open one_client = Done ch s1 /\
    handleSSE_done ch s1 = Done tt s2 /\
    clients s2 = clients one_client /\
    activeTraders s2 = activeTraders one_client.
Proof.
  destruct (connect_disconnect_restores one_client one_client_reachable)
    as (ch & s1 & s2 & E1 & E2 & Hc & Ha & _).
  exists ch, s1, s2. repeat split; assumption.
Defined.

(** The statistics event reports the three counters as they stand: the
    trade counter, the volume rounded to 2 decimal places and the
    [activeTraders] counter, with the time of day; sending it changes no
    counter, no price and not the registry. *)
Theorem stats_report_counters (s : State) :
  reachable s ->
  exists s',
    broadcastStats s = Done tt s' /\
    totalTrades s' = totalTrades s /\ totalVolume s' = totalVolume s /\
    activeTraders s' = activeTraders s /\ cryptos s' = cryptos s /\
    clients s' = clients s /\
    forall ch, is_Some (clients s !! ch) ->
      chans s' !! ch =
        offer (mkSSEMessage "stats"
                 (StatsData (totalTrades s) (round2 (totalVolume s))
                    (activeTraders s) (Clock (oracle s) (cursor s))))
          <$> chans s !! ch.
Proof.
  intros Hinv%reachable_inv. pose proof Hinv as [[Q1 Q2] L B F Mk U C].
  set (msg := mkSSEMessage "stats"
                (StatsData (totalTrades s) (round2 (totalVolume s))
                   (activeTraders s) (Clock (oracle s) (cursor s)))).
  assert (E : broadcastStats s = broadcast msg (set_cursor S s)).
  { unfold msg. destruct s; simpl in *; subst. reflexivity. }
  destruct (broadcast_spec msg (set_cursor S s)) as (s' & Eb & O & Lk).
  { destruct s; simpl in *. by subst. }
  { intros ch Hch. destruct s; simpl in *. by apply L. }
  destruct (only_chans_fields _ s' O) as (Hcr & Hcl & _ & _ & Htt & Htv & Hat & _).
  exists s'. split; [congruence|].
  split; [rewrite Htt; by destruct s|]. split; [rewrite Htv; by destruct s|].
  split; [rewrite Hat; by destruct s|]. split; [rewrite Hcr; by destruct s|].
  split; [rewrite Hcl; by destruct s|].
  intros ch Hch. rewrite Lk, decide_True by (by destruct s).
  unfold msg. by destruct s.
Qed.

Lemma stats_report_counters_witness :
  exists s',
    broadcastStats one_client = Done tt s' /\
    chans s' !! 0%nat =
      Some (mkChan [mkSSEMessage "stats" (StatsData 0 0 1 "12:00:00")] 10 false).
Proof.
  destruct (stats_report_counters one_client one_client_reachable)
    as (s' & E & _ & _ & _ & _ & _ & H).
  exists s'. split; [exact E|].
  etransitivity; [apply (H 0%nat); by eexists|]. by vm_compute.
Defined.

(** The number of trade ticks in a run. *)
Fixpoint trade_ticks (acts : list Action) : nat :=
  match acts with
  | [] => 0
  | TradeTick :: acts' => S (trade_ticks acts')
  | _ :: acts' => trade_ticks acts'
  end.

Lemma act_totalTrades a s s' :
  hub_inv s -> enabled a s -> act a s = Done tt s' ->
  totalTrades s' = wrap64 (totalTrades s + Z.of_nat (trade_ticks [a])) \/
  (trade_ticks [a] = 0%nat /\ totalTrades s' = totalTrades s).
Proof.
  intros Hinv Hen Hact. pose proof (act_Done_shape a s s' Hinv Hen Hact) as Hs.
  destruct a; simpl in Hs; simpl.
  - right. split; [done|]. subst s'.
    destruct (written_fields (nextChan s) (init_message s) (opened s))
      as (_ & _ & _ & _ & _ & _ & _ & -> & _). by destruct s.
  - right. split; [done|]. destruct Hs as (c & m & rest & _ & _ & _ & ->).
    destruct (written_fields ch m (set_chans <[ch := mkChan rest (cap c) false]> s))
      as (_ & _ & _ & _ & _ & _ & _ & -> & _). by destruct s.
  - right. split; [done|]. destruct Hs as (c & _ & _ & ->). by destruct s.
  - right. split; [done|]. destruct Hs as (s1 & msg & Om & _ & _ & _ & _ & O).
    destruct (only_chans_fields _ s' O) as (_ & _ & _ & _ & -> & _).
    rewrite Om. by destruct s.
  - left. destruct Hs as (symbol & crypto & _ & _ & _ & O).
    destruct (only_chans_fields _ s' O) as (_ & _ & _ & _ & -> & _). by destruct s.
  - right. split; [done|]. destruct Hs as (msg & _ & O).
    destruct (only_chans_fields _ s' O) as (_ & _ & _ & _ & -> & _). by destruct s.
  - right. split; [done|]. destruct Hs as (msg & _ & O).
    destruct (only_chans_fields _ s' O) as (_ & _ & _ & _ & -> & _). by destruct s.
  - right. split; [done|]. destruct Hs as (c & _ & _ & ->). by destruct s.
Qed.

Lemma trade_ticks_cons a acts :
  trade_ticks (a :: acts) = (trade_ticks [a] + trade_ticks acts)%nat.
Proof. by destruct a. Qed.

Lemma steps_totalTrades s acts s' z :
  hub_inv s -> steps s acts s' -> totalTrades s = wrap64 z ->
  totalTrades s' = wrap64 (z + Z.of_nat (trade_ticks acts)).
Proof.
  intros Hinv Hst. revert z.
  induction Hst as [|s s1 s2 a acts Hen Hact _ IH]; intros z Hz.
  - simpl. rewrite Hz. f_equal. lia.
  - rewrite trade_ticks_cons.
    rewrite (IH (act_inv a s s1 Hinv Hen Hact) (z + Z.of_nat (trade_ticks [a]))).
    + f_equal. lia.
    + destruct (act_totalTrades a s s1 Hinv Hen Hact) as [E|[E0 E]].
      * rewrite E, Hz. apply wrap64_add.
      * rewrite E, Hz, E0. f_equal. simpl. lia.
Qed.

(** [totalTrades] is the number of trade ticks since the process started
    (as a 64-bit integer), whatever else has run in between. *)
Theorem trades_are_counted (o : Oracle) (acts : list Action) (s : State) :
  steps (init_state o) acts s ->
  totalTrades s = wrap64 (Z.of_nat (trade_ticks acts)).
Proof.
  intros Hst.
  apply (steps_totalTrades (init_state o) acts s 0 (init_inv o) Hst). reflexivity.
Qed.

Lemma trades_are_counted_witness :
  exists s,
    steps (init_state sample_oracle) [Connect; TradeTick; AlertTick; TradeTick] s /\
    totalTrades s = 2.
Proof.
  eexists. split.
  - eapply steps_cons; [done | by vm_compute |].
    eapply steps_cons; [done | by vm_compute |].
    eapply steps_cons; [done | by vm_compute |].
    eapply steps_cons; [done | by vm_compute |]. apply steps_nil.
  - rewrite (trades_are_counted sample_oracle [Connect; TradeTick; AlertTick; TradeTick]).
    + reflexivity.
    + eapply steps_cons; [done | by vm_compute |].
      eapply steps_cons; [done | by vm_compute |].
      eapply steps_cons; [done | by vm_compute |].
      eapply steps_cons; [done | by vm_compute |]. apply steps_nil.
Defined.

(** In a state the program reaches every enabled action returns, except
    that the loop of a connection whose queue is empty waits, having changed
    nothing: no action panics. *)
Theorem enabled_actions_return (s : State) (a : Action) :
  reachable s -> enabled a s ->
  (exists s', act a s = Done tt s') \/
  (exists ch c, a = Message ch /\ chans s !! ch = Some c /\ buf c = [] /\
                act a s = Block s).
Proof.
  intros Hinv%reachable_inv Hen. pose proof Hinv as [[Q1 Q2] L B F Mk U C].
  destruct a; simpl in Hen.
  - left. simpl. erewrite bind_Done by exact (handleSSE_open_exact s (conj Q1 Q2)). eauto.
  - destruct (L ch Hen) as (c & Hc & Hopen).
    destruct (buf c) as [|m rest] eqn:Hbuf.
    + right. exists ch, c. repeat split; try done.
      simpl. unfold handleSSE_message. apply bind_Block.
      by rewrite (recv_cases ch s c Hc Hopen), Hbuf.
    + left. simpl. unfold handleSSE_message. erewrite bind_Done; last first.
      { by rewrite (recv_cases ch s c Hc Hopen), Hbuf. }
      rewrite sendSSE_written. eauto.
  - left. destruct (L ch Hen) as (c & Hc & Hopen). simpl. unfold handleSSE_done.
    rewrite (removeClient_open ch s c (conj Q1 Q2) Hc Hopen). eauto.
  - left. destruct (producer_broadcasts PriceTick s Hinv I) as (msg & s1 & E & Heq).
    destruct (producer_inv _ msg s s1 Hinv Heq E) as (s' & E' & _). eauto.
  - left. destruct (producer_broadcasts TradeTick s Hinv I) as (msg & s1 & E & Heq).
    destruct (producer_inv _ msg s s1 Hinv Heq E) as (s' & E' & _). eauto.
  - left. destruct (producer_broadcasts AlertTick s Hinv I) as (msg & s1 & E & Heq).
    destruct (producer_inv _ msg s s1 Hinv Heq E) as (s' & E' & _). eauto.
  - left. destruct (producer_broadcasts StatsTick s Hinv I) as (msg & s1 & E & Heq).
    destruct (producer_inv _ msg s s1 Hinv Heq E) as (s' & E' & _). eauto.
  - left. destruct (L ch Hen) as (c & Hc & Hopen). simpl.
    rewrite (try_send_open msg ch s c Hc Hopen). eauto.
Qed.

Lemma enabled_actions_return_witness :
  act (Message 0) one_client = Block one_client /\
  exists s', act TradeTick one_client = Done tt s'.
Proof.
  split.
  - destruct (enabled_actions_return one_client (Message 0) one_client_reachable)
      as [[s' E]|(ch & c & _ & _ & _ & E)]; [by eexists | | exact E].
    exfalso. vm_compute in E. discriminate.
  - destruct (enabled_actions_return one_client TradeTick one_client_reachable I)
      as [H|(ch & c & Ha & _)]; [exact H | discriminate].
Defined.

(** ** The locks of the registry *)

(** While a writer holds [clientsMu], [broadcast] waits; while a writer or
    a reader (a broadcast loop in flight) holds it, [addClient] and
    [removeClient] wait.  Whoever waits has changed nothing. *)
Theorem registry_lock_protocol (s : State) (ch : nat) (msg : SSEMessage) :
  (writer (clientsMu s) = true -> broadcast msg s = Block s) /\
  (writer (clientsMu s) = true \/ readers (clientsMu s) <> 0%nat ->
   addClient ch s = Block s /\ removeClient ch s = Block s).
Proof.
  split.
  - intros Hw. unfold broadcast, broadcast_over, mbind, M_bind, get, RLock. simpl.
    by rewrite Hw.
  - intros Hheld.
    assert (Lock ClientsMu s = Block s) as HL.
    { unfold Lock. simpl. destruct Hheld as [->|Hr]; [done|].
      destruct (readers (clientsMu s)); [done|]. by rewrite orb_true_r. }
    split; [unfold addClient | unfold removeClient]; by apply bind_Block.
Qed.

Lemma try_send_outcome msg ch s :
  (exists c, chans s !! ch = Some c /\ closed c = true /\
             try_send msg ch s = Panic "send on closed channel" s) \/
  (exists s', try_send msg ch s = Done tt s' /\ only_chans s s' /\
              forall ch' c', chans s !! ch' = Some c' -> closed c' = true ->
                             chans s' !! ch' = Some c').
Proof.
  unfold try_send. destruct (chans s !! ch) as [c|] eqn:Hc.
  - destruct (closed c) eqn:Ho; [left; eauto|]. right.
    destruct (length (buf c) <? cap c)%nat.
    + eexists. split; [done|]. split; [apply only_chans_set|].
      intros ch' c' Hc' Hcl. destruct s; simpl in *.
      rewrite lookup_insert_ne; [done|]. intros ->. congruence.
    + exists s. split; [done|]. split; [apply only_chans_refl | done].
  - right. exists s. split; [done|]. split; [apply only_chans_refl | done].
Qed.

Lemma for_each_try_send_closed msg (order : list nat) s ch c :
  ch ∈ order -> chans s !! ch = Some c -> closed c = true ->
  exists s', for_each order (try_send msg) s = Panic "send on closed channel" s' /\
             only_chans s s'.
Proof.
  revert s. induction order as [|x order IH]; intros s Hin Hc Hcl.
  - by apply elem_of_nil in Hin.
  - simpl. destruct (try_send_outcome msg x s) as [(cx & _ & _ & E)|(s1 & E & O & Hkeep)].
    + exists s. split; [by apply bind_Panic | apply only_chans_refl].
    + assert (ch ∈ order) as Hin'.
      { apply elem_of_cons in Hin as [->|Hin]; [|done].
        exfalso. unfold try_send in E. by rewrite Hc, Hcl in E. }
      destruct (IH s1 Hin' (Hkeep ch c Hc Hcl) Hcl) as (s' & E' & O').
      exists s'. split; [|by eapply only_chans_trans].
      erewrite bind_Done by exact E. exact E'.
Qed.

(** Should the registry hold a closed channel, [broadcast] panics on the
    send, and the deferred [RUnlock] has released [clientsMu] by the time
    the panic leaves it: nothing but channels has changed. *)
Theorem broadcast_panic_releases_lock (s : State) (msg : SSEMessage) (ch : nat) (c : Chan) :
  writer (clientsMu s) = false ->
  is_Some (clients s !! ch) -> chans s !! ch = Some c -> closed c = true ->
  exists s', broadcast msg s = Panic "send on closed channel" s' /\ only_chans s s'.
Proof.
  intros Hw Hin Hc Hcl.
  set (s1 := set_clientsMu (fun _ => mkRWMutex false (S (readers (clientsMu s)))) s).
  destruct (for_each_try_send_closed msg (range_clients s) s1 ch c) as (s2 & E & O).
  { by apply elem_of_range_clients. }
  { by destruct s. }
  { done. }
  exists (set_chans (fun _ => chans s2) s). split; [|apply only_chans_set].
  unfold broadcast, broadcast_over. unfold mbind at 1, M_bind at 1, get.
  erewrite bind_Done; last first.
  { unfold RLock. simpl. rewrite Hw. reflexivity. }
  fold s1. unfold defer. rewrite E.
  unfold only_chans in O. rewrite O.
  destruct s as [? ? ? ? [w r] ? ? ? ? ? ? ?]; simpl in *; subst w. reflexivity.
Qed.

(** A closed channel is put back into the registry. *)
Definition reregistered : State :=
  final (addClient 0 (final (removeClient 0 one_client))).

Lemma broadcast_panic_releases_lock_witness :
  exists s', broadcast sample_alert reregistered = Panic "send on closed channel" s' /\
             clientsMu s' = unlocked.
Proof.
  destruct (broadcast_panic_releases_lock reregistered sample_alert 0 (mkChan [] 10 true))
    as (s' & E & O); [reflexivity | by eexists | reflexivity | reflexivity |].
  exists s'. split; [exact E|]. rewrite O. reflexivity.
Defined.

(** ** The market over a whole run *)

Lemma within_20_finite x :
  (-20 <=? x)%float = true -> (x <=? 20)%float = true -> is_finite x = true.
Proof.
  intros Hlo Hhi. unfold is_finite, is_infinity.
  rewrite (B64.leb_not_nan_l x 20 Hhi). simpl. apply negb_true_iff.
  rewrite FloatAxioms.eqb_spec, FloatAxioms.abs_spec.
  rewrite FloatAxioms.leb_spec in Hlo, Hhi. unfold SFleb in *.
  change (Prim2SF infinity) with (S754_infinity false).
  destruct (Prim2SF x) as [sx|sx| |sx mx ex]; [done | | done | done].
  destruct sx.
  - vm_compute in Hlo. done.
  - vm_compute in Hhi. done.
Qed.

(** Every 24h-change of the market is within [[-20, 20]]. *)
Definition changes_within_20 (s : State) : Prop :=
  forall x c, cryptos s !! x = Some c ->
    (-20 <=? Change24h c)%float = true /\ (Change24h c <=? 20)%float = true.

Lemma init_changes_within_20 o : changes_within_20 (init_state o).
Proof.
  intros x c Hc. apply seed_lookup in Hc.
  repeat (apply elem_of_cons in Hc as [[= _ ->]|Hc]; [by vm_compute|]).
  by apply elem_of_nil in Hc.
Qed.

Lemma act_changes_within_20 a s s' :
  hub_inv s -> market_labelled s -> unit_draws (oracle s) ->
  enabled a s -> act a s = Done tt s' ->
  changes_within_20 s -> changes_within_20 s'.
Proof.
  intros Hinv [Hk _] Hd Hen Hact Hrange.
  destruct (act_market a s s' Hinv Hen Hact) as [_ [(_ & I & V)|(_ & E)]];
    [|unfold changes_within_20; by rewrite E].
  intros x c' Hc'.
  destruct (decide (x ∈ symbols)) as [Hin|Hin].
  - apply list_elem_of_lookup in Hin as [i Hi].
    destruct (inv_market s Hinv x) as [c Hc]; [by eapply list_elem_of_lookup_2|].
    rewrite (I i x c Hi Hc) in Hc'. injection Hc' as <-.
    destruct (Hrange x c Hc) as [Hlo Hhi].
    apply tick_crypto_change; [by apply within_20_finite | apply Hd..].
  - rewrite V in Hc' by done. destruct Hin. apply Hk. eauto.
Qed.

(** From the start of the process on, under draws of [rand.Float64] in
    [[0, 1)], every 24h-change in the market stays within [[-20, 20]],
    whatever the program does. *)
Theorem change_always_within_20 (o : Oracle) (acts : list Action) (s : State) :
  unit_draws o ->
  steps (init_state o) acts s ->
  forall x c, cryptos s !! x = Some c ->
    (-20 <=? Change24h c)%float = true /\ (Change24h c <=? 20)%float = true.
Proof.
  intros Hd Hst.
  assert (Hgen : forall s0, hub_inv s0 -> market_labelled s0 -> oracle s0 = o ->
            changes_within_20 s0 -> steps s0 acts s -> changes_within_20 s).
  { clear Hst. intros s0 Hinv Hm Ho Hr Hst.
    induction Hst as [|s0 s1 s2 a acts Hen Hact _ IH]; [done|].
    apply IH.
    - by apply (act_inv a s0).
    - by apply (act_market_labelled a s0).
    - rewrite <- Ho. by destruct (act_market a s0 s1 Hinv Hen Hact).
    - apply (act_changes_within_20 a s0); try done. by rewrite Ho. }
  apply (Hgen (init_state o));
    [apply init_inv | apply init_market_labelled | done | apply init_changes_within_20 | done].
Qed.

Lemma change_always_within_20_witness :
  exists s c,
    steps (init_state sample_oracle) [PriceTick; PriceTick] s /\
    cryptos s !! "SOL" = Some c /\
    (-20 <=? Change24h c)%float = true /\ (Change24h c <=? 20)%float = true.
Proof.
  assert (exists s, steps (init_state sample_oracle) [PriceTick; PriceTick] s)
    as [s Hst].
  { eexists. eapply steps_cons; [done | by vm_compute |].
    eapply steps_cons; [done | by vm_compute |]. apply steps_nil. }
  destruct (inv_market s (steps_inv _ _ s (init_inv sample_oracle) Hst) "SOL")
    as [c Hc]; [repeat constructor|].
  exists s, c. split; [exact Hst|]. split; [exact Hc|].
  exact (change_always_within_20 sample_oracle [PriceTick; PriceTick] s
           sample_unit_draws Hst "SOL" c Hc).
Defined.

(** ** The events of the producers *)

Lemma updatePrices_event (s : State) :
  reachable s ->
  exists s',
    updatePrices s = Done tt s' /\
    cursor s' = (cursor s + 18)%nat /\
    clients s' = clients s /\ activeTraders s' = activeTraders s /\
    totalTrades s' = totalTrades s /\ totalVolume s' = totalVolume s /\
    forall ch, is_Some (clients s !! ch) ->
      chans s' !! ch =
        offer (mkSSEMessage "prices" (PricesData ((map_to_list (cryptos s')).*2)))
          <$> chans s !! ch.
Proof.
  intros Hinv%reachable_inv. pose proof Hinv as [[Q1 Q2] L B F Mk U C].
  destruct (tick_loop_spec symbols s NoDup_symbols Mk) as (s1 & E & Om & K & I & V).
  set (msg := mkSSEMessage "prices" (PricesData ((map_to_list (cryptos s1)).*2))).
  assert (E1 : updatePrices s = broadcast msg s1).
  { unfold updatePrices. erewrite bind_Done by exact E. reflexivity. }
  assert (Heq : hub_eq s s1).
  { apply only_market_hub_eq; [done|]. by apply tick_keeps_tracked. }
  pose proof (hub_inv_eq s s1 Heq Hinv) as Hinv1.
  destruct (broadcast_spec msg s1) as (s' & Eb & O & Lk);
    [by rewrite (proj1 (inv_quiescent s1 Hinv1)) | apply (inv_live s1 Hinv1) |].
  destruct (only_chans_fields s1 s' O)
    as (Hcr & Hcl & _ & Hcu & Htt & Htv & Hat & _).
  destruct Heq as (Hch & _ & Hcl1 & _ & _ & Hat1 & _).
  exists s'. split; [congruence|].
  split; [rewrite Hcu, K; simpl; lia|].
  split; [congruence|]. split; [congruence|].
  split; [rewrite Htt, Om; by destruct s|].
  split; [rewrite Htv, Om; by destruct s|].
  intros ch Hin. rewrite Lk, decide_True, Hch, Hcr by (by rewrite Hcl1). done.
Qed.

(** A price tick makes 18 draws, changes neither the registry nor any
    counter, and offers every sink of the registry one and the same "prices"
    event, whose payload is a snapshot of the market as the tick has left
    it: in some order, one record for each tracked symbol, as the market has
    it after the tick. *)
Theorem price_event_carries_new_market (s : State) :
  reachable s ->
  exists s' cs,
    updatePrices s = Done tt s' /\
    cursor s' = (cursor s + 18)%nat /\
    clients s' = clients s /\ activeTraders s' = activeTraders s /\
    totalTrades s' = totalTrades s /\ totalVolume s' = totalVolume s /\
    Symbol <$> cs ≡ₚ symbols /\
    (forall c, c ∈ cs <-> cryptos s' !! Symbol c = Some c) /\
    forall ch, is_Some (clients s !! ch) ->
      chans s' !! ch = offer (mkSSEMessage "prices" (PricesData cs)) <$> chans s !! ch.
Proof.
  intros Hr. pose proof (reachable_inv s Hr) as Hinv.
  destruct (updatePrices_event s Hr) as (s' & E & H1 & H2 & H3 & H4 & H5 & H6).
  destruct (market_snapshot s') as [Hp Hin].
  { by apply (act_inv PriceTick s). }
  { apply (act_market_labelled PriceTick s); [done | done | done |].
    by apply reachable_market_labelled. }
  exists s', ((map_to_list (cryptos s')).*2). repeat split; try done; apply Hin.
Qed.

Lemma price_event_carries_new_market_witness :
  exists s' cs,
    updatePrices one_client = Done tt s' /\
    Symbol <$> cs ≡ₚ symbols /\
    chans s' !! 0%nat = Some (mkChan [mkSSEMessage "prices" (PricesData cs)] 10 false).
Proof.
  destruct (price_event_carries_new_market one_client one_client_reachable)
    as (s' & cs & E & _ & _ & _ & _ & _ & Hp & _ & H).
  exists s', cs. split; [exact E|]. split; [exact Hp|].
  etransitivity; [apply (H 0%nat); by eexists|]. reflexivity.
Defined.

(** An alert tick changes neither the market nor any counter nor the
    registry; the one event it offers to every sink of the registry is an
    entry of the catalog, stamped with an identifier made of the clock's
    nanoseconds and with the time of day. *)
Theorem alert_comes_from_catalog (s : State) :
  reachable s ->
  exists s' entry,
    generateAlert s = Done tt s' /\
    entry ∈ alerts /\
    cryptos s' = cryptos s /\ clients s' = clients s /\
    activeTraders s' = activeTraders s /\
    totalTrades s' = totalTrades s /\ totalVolume s' = totalVolume s /\
    forall ch, is_Some (clients s !! ch) ->
      chans s' !! ch =
        offer (mkSSEMessage "alert"
                 (AlertData
                    (mkAlert ("A" +:+ pretty (UnixNano (oracle s) (S (cursor s))))
                       (Alert_Type entry) (Alert_Title entry) (Alert_Message entry)
                       (Clock (oracle s) (S (S (cursor s)))))))
          <$> chans s !! ch.
Proof.
  intros Hinv%reachable_inv. pose proof Hinv as [[Q1 Q2] L B F Mk U C].
  destruct (rand_Intn_spec (length alerts) s) as (i & Hi & E); [done|].
  destruct (lookup_lt_is_Some_2 alerts i Hi) as [entry Ha].
  set (msg := mkSSEMessage "alert"
                (AlertData
                   (mkAlert ("A" +:+ pretty (UnixNano (oracle s) (S (cursor s))))
                      (Alert_Type entry) (Alert_Title entry) (Alert_Message entry)
                      (Clock (oracle s) (S (S (cursor s))))))).
  set (s1 := set_cursor (fun k => S (S (S k))) s).
  assert (E1 : generateAlert s = broadcast msg s1).
  { unfold generateAlert. erewrite bind_Done by exact E. rewrite Ha.
    unfold time_Now_UnixNano, time_Now_Format, draw, mbind, M_bind, msg, s1.
    destruct s; reflexivity. }
  destruct (broadcast_spec msg s1) as (s' & Eb & O & Lk).
  { unfold s1. destruct s; simpl in *. by subst. }
  { intros ch Hch. unfold s1 in *. destruct s; simpl in *. by apply L. }
  destruct (only_chans_fields s1 s' O) as (Hcr & Hcl & _ & _ & Htt & Htv & Hat & _).
  exists s', entry. split; [congruence|].
  split; [by eapply list_elem_of_lookup_2|].
  split; [rewrite Hcr; unfold s1; by destruct s|].
  split; [rewrite Hcl; unfold s1; by destruct s|].
  split; [rewrite Hat; unfold s1; by destruct s|].
  split; [rewrite Htt; unfold s1; by destruct s|].
  split; [rewrite Htv; unfold s1; by destruct s|].
  intros ch Hin. rewrite Lk, decide_True by (unfold s1; by destruct s).
  unfold s1. by destruct s.
Qed.

Lemma alert_comes_from_catalog_witness :
  exists s' entry,
    generateAlert one_client = Done tt s' /\ entry ∈ alerts /\
    cryptos s' = cryptos one_client.
Proof.
  destruct (alert_comes_from_catalog one_client one_client_reachable)
    as (s' & entry & E & Hin & Hc & _).
  exists s', entry. split; [exact E|]. split; [exact Hin | exact Hc].
Defined.

(** ** Rounding and magnitude

    Bounds on what the rounding of binary64 does to the magnitude of a
    value, read off [binary_round_aux]: the shift to the exponent of the
    format, the rounding to nearest even, and the second shift after a
    carry. *)

Module Rounding.














(** A value of magnitude at most [2 ^ K]: a zero, or a finite value whose
    mantissa and exponent say so. *)
Definition mag_le (K : Z) (x : spec_float) : Prop :=
  match x with
  | S754_zero _ => True
  | S754_finite _ m e => -1074 <= e <= K /\ Z.pos m <= 2 ^ (K - e)
  | _ => False
  end.


Lemma mag_le_mono K K' x : K <= K' -> mag_le K x -> mag_le K' x.
Proof.
  intros HK. destruct x as [s|s| |s m e]; simpl; try done.
  intros [He Hm]. split; [lia|].
  etransitivity; [exact Hm|]. apply Z.pow_le_mono_r; lia.
Qed.










(** ** The four operations of the perturbation *)






End Rounding.

(** ** The price of one tick *)

Section Perturbation.
Import B64 Rounding.
Local Open Scope float_scope.




End Perturbation.

(** ** The price and the extrema over a whole run *)
















(** ** A run to the overflow of a price *)











